(** * Skip+ overlay maintenance (vaud/skip.py): a shallow embedding

    The Python module [vaud.skip] is embedded function by function.

    - A [CopyableBitArray] is a [list bool], most significant bit first.
    - A Python [set] is the list of its elements in iteration order,
      without duplicates; [add] puts a new element last.  The statements
      below are about membership, or say where the iteration order shows
      through, and [skipRange_Permutation] shows that the ranges do not
      depend on it.
    - [vaud.core] is not among the sources.  What the module takes from
      it is either modelled from the specification (the order on
      references and on bit strings, [newNode], the attribute lookup of
      a reference) or left as a parameter
      (the host name, the random bit string, the method [introduce]).
    - The [dict] [_ranges] is a [gmap nat].
    - A raised exception is the [Raise] case of [result]; methods of a
      node thread the node's state explicitly and list the remote
      invocations they issue. *)

From stdpp Require Import gmap strings list.
From Stdlib Require Import ZArith Ascii.

Set Default Proof Using "Type".
Open Scope Z_scope.
Open Scope nat_scope.

(** ** Exceptions *)

Inductive PyError : Type :=
| AttributeError
| ValueError
| KeyError
| IndexError
| TypeError.

Inductive result (A : Type) : Type :=
| Ok (a : A)
| Raise (e : PyError).

Arguments Ok {A} a.
Arguments Raise {A} e.

Definition bind {A B : Type} (m : result A) (k : A -> result B) : result B :=
  match m with
  | Ok a => k a
  | Raise e => Raise e
  end.

Notation "'let!' x ':=' m 'in' k" := (bind m (fun x => k))
  (at level 10, x name, m at level 100, k at level 200).


(** ** Bit strings *)

Definition BitString : Type := list bool.

(** Modelled from the spec: the comparison of [CopyableBitArray] lives in
    [vaud.core], which is not part of the sources.  The specification asks
    for the lexicographic order, most significant bit first. *)
Fixpoint bits_ltb (a b : BitString) : bool :=
  match a, b with
  | [], [] => false
  | [], _ :: _ => true
  | _ :: _, [] => false
  | x :: a', y :: b' =>
      if Bool.eqb x y then bits_ltb a' b' else negb x
  end.

Definition bits_eqb (a b : BitString) : bool := bool_decide (a = b).

(** ** SkipNodeReference *)

Record SkipNodeReference : Type := mkSkipNodeReference {
  host : option string;
  port : option Z;
  _rs : option BitString
}.

#[global] Instance SkipNodeReference_eq_dec : EqDecision SkipNodeReference.
Proof. solve_decision. Defined.

(** [SkipNodeReference.__init__(host=None, port=None, rs=None)] *)
Definition SkipNodeReference_init
    (h : option string) (p : option Z) (r : option BitString) : SkipNodeReference :=
  {| host := h; port := p; _rs := r |}.

(** The getter of the [rs] property: the body of the function, which
    raises [AttributeError] when [_rs] is [None].  What the attribute
    access [v.rs] gives is [getattr_rs] below: when a getter raises
    [AttributeError], Python hands the lookup to [__getattr__] of the
    class.  The functions of this module that go on to call a method of
    the bit string ([v.rs.copy()] in [prefix]) fail with
    [AttributeError] either way, a remote caller having no such
    method, and are written with the getter. *)
Definition rs (v : SkipNodeReference) : result BitString :=
  match _rs v with
  | None => Raise AttributeError
  | Some b => Ok b
  end.


(** What the attribute [rs] of a reference can be: a bit string, or the
    remote caller of a method registered under a name. *)
Inductive RsAttr : Type :=
| bit_string (b : BitString)
| remote_caller (name : string).

(** The names this module registers as remote methods, by the decorator
    [remoteMethod] on [SkipNode.rs] and [SkipNode.linearise]. *)
Definition methodNames : list string := ["rs"; "linearise"].

(** Modelled from the spec: the attribute lookup of the base class
    [NodeReference] lives in [vaud.core], which is not part of the
    sources.  A reference exposes, for every method name registered as
    remote, an invocation that returns a deferred (the factory calls
    [rs()] on a bare [NodeReference] in this way); any other name is an
    [AttributeError]. *)
Definition NodeReference_getattr (name : string) : result RsAttr :=
  if decide (name ∈ methodNames) then Ok (remote_caller name)
  else Raise AttributeError.

(** The attribute access [v.rs]: the getter, and the lookup of the base
    class when the getter raises [AttributeError]. *)
Definition getattr_rs (v : SkipNodeReference) : result RsAttr :=
  match rs v with
  | Ok b => Ok (bit_string b)
  | Raise AttributeError => NodeReference_getattr "rs"
  | Raise e => Raise e
  end.

(** [len(a)] and [a[i]] on what [v.rs] gave: a remote caller has no
    length. *)
Definition as_bits (a : RsAttr) : result BitString :=
  match a with
  | bit_string b => Ok b
  | remote_caller _ => Raise TypeError
  end.


(** ** The order on references

    [lowest] and [highest] are the two [PseudoNodeReference]s. *)

Inductive Ref : Type :=
| lowest
| highest
| real (r : SkipNodeReference).

#[global] Instance Ref_eq_dec : EqDecision Ref.
Proof. solve_decision. Defined.

(** Modelled from the spec: the rich comparisons of [NodeReference] and
    [PseudoNodeReference] live in [vaud.core], which is not part of the
    sources.  References are ordered by [rs]; [lowest] is strictly below
    and [highest] strictly above every real reference.  Reading [rs]
    raises when it is missing. *)
Definition ref_lt (a b : Ref) : result bool :=
  match a, b with
  | lowest, lowest => Ok false
  | lowest, _ => Ok true
  | _, lowest => Ok false
  | highest, _ => Ok false
  | _, highest => Ok true
  | real x, real y =>
      let! rx := rs x in
      let! ry := rs y in
      Ok (bits_ltb rx ry)
  end.

Definition ref_gt (a b : Ref) : result bool := ref_lt b a.

(** Modelled from the spec: the order is total on [rs], so [a <= b] is
    [not (b < a)]. *)
Definition ref_le (a b : Ref) : result bool :=
  let! c := ref_lt b a in Ok (negb c).

(** ** Python builtins used by the module *)

(** A comprehension [[x for x in l if p(x)]]; [p] may raise. *)
Fixpoint filterM {A : Type} (p : A -> result bool) (l : list A) : result (list A) :=
  match l with
  | [] => Ok []
  | x :: l' =>
      let! b := p x in
      let! r := filterM p l' in
      Ok (if b then x :: r else r)
  end.

(** [max(l)]: the first of the greatest elements; [ValueError] on an
    empty sequence. *)
Fixpoint max_from (cur : Ref) (l : list Ref) : result Ref :=
  match l with
  | [] => Ok cur
  | x :: l' =>
      let! b := ref_gt x cur in
      max_from (if b then x else cur) l'
  end.

Definition py_max (l : list Ref) : result Ref :=
  match l with
  | [] => Raise ValueError
  | x :: l' => max_from x l'
  end.

(** [min(l)]: the first of the least elements. *)
Fixpoint min_from (cur : Ref) (l : list Ref) : result Ref :=
  match l with
  | [] => Ok cur
  | x :: l' =>
      let! b := ref_lt x cur in
      min_from (if b then x else cur) l'
  end.

Definition py_min (l : list Ref) : result Ref :=
  match l with
  | [] => Raise ValueError
  | x :: l' => min_from x l'
  end.

(** [max(l, key=key)]: only the keys are compared, and an element
    replaces the current one only when its key is strictly greater. *)
Fixpoint max_key_from {A : Type} (key : A -> result nat)
    (cur : A) (kcur : nat) (l : list A) : result A :=
  match l with
  | [] => Ok cur
  | x :: l' =>
      let! kx := key x in
      if bool_decide (kcur < kx)
      then max_key_from key x kx l'
      else max_key_from key cur kcur l'
  end.

Definition py_max_key {A : Type} (key : A -> result nat) (l : list A) : result A :=
  match l with
  | [] => Raise ValueError
  | x :: l' => let! kx := key x in max_key_from key x kx l'
  end.

(** ** General skip helper functions *)

(** [v.rs.copy()[:i]] *)
Definition prefix (i : nat) (v : SkipNodeReference) : result BitString :=
  let! r := rs v in Ok (take i r).

Definition pred (v : SkipNodeReference) (W : list SkipNodeReference) : result Ref :=
  let! below := filterM (fun w => ref_lt (real w) (real v)) W in
  py_max (map real below ++ [lowest]).

Definition succ (v : SkipNodeReference) (W : list SkipNodeReference) : result Ref :=
  let! above := filterM (fun w => ref_gt (real w) (real v)) W in
  py_min (map real above ++ [highest]).

Definition _levelNodes (i : nat) (v : SkipNodeReference) (x : bool)
    (N : list SkipNodeReference) : result (list SkipNodeReference) :=
  let! pref := prefix i v in
  let pref := pref ++ [x] in
  filterM (fun w => let! pw := prefix (i + 1) w in Ok (bits_eqb pw pref)) N.

Definition levelPred (i : nat) (v : SkipNodeReference) (x : bool)
    (N : list SkipNodeReference) : result Ref :=
  let! W := _levelNodes i v x N in pred v W.

Definition levelSucc (i : nat) (v : SkipNodeReference) (x : bool)
    (N : list SkipNodeReference) : result Ref :=
  let! W := _levelNodes i v x N in succ v W.

Definition low (i : nat) (v : SkipNodeReference) (N : list SkipNodeReference)
  : result Ref :=
  let! p0 := levelPred i v false N in
  let! p1 := levelPred i v true N in
  py_min [p0; p1].

Definition high (i : nat) (v : SkipNodeReference) (N : list SkipNodeReference)
  : result Ref :=
  let! s0 := levelSucc i v false N in
  let! s1 := levelSucc i v true N in
  py_max [s0; s1].

Definition skipRange (i : nat) (v : SkipNodeReference) (N : list SkipNodeReference)
  : result (list SkipNodeReference) :=
  let! vPrefix := prefix i v in
  let! l := low i v N in
  let! h := high i v N in
  filterM (fun w =>
    let! pw := prefix i w in
    if bits_eqb pw vPrefix then
      let! b := ref_le l (real w) in
      if b then ref_le (real w) h else Ok false
    else Ok false) N.

Fixpoint commonPrefixLength (v w : BitString) : nat :=
  match v, w with
  | a :: v', b :: w' =>
      if Bool.eqb a b then S (commonPrefixLength v' w') else 0
  | _, _ => 0
  end.

(** The key function [lambda x: commonPrefixLength(x.rs, w.rs)]: both
    attributes are read, then [commonPrefixLength] takes the length of
    both arguments. *)
Definition commonPrefixKey (w x : SkipNodeReference) : result nat :=
  let! xa := getattr_rs x in
  let! wa := getattr_rs w in
  let! xr := as_bits xa in
  let! wr := as_bits wa in
  Ok (commonPrefixLength xr wr).

Definition longestCommonPrefixNode (w : SkipNodeReference)
    (W : list SkipNodeReference) : result SkipNodeReference :=
  py_max_key (commonPrefixKey w) W.

(** ** Remote invocations

    [v.linearise(c)] on a reference [v] is dispatched by [vaud.core] to
    the node behind [v] and returns a deferred; it is recorded here as an
    issued call. *)

Record Call : Type := mkCall {
  target : SkipNodeReference;
  method : string;
  argument : SkipNodeReference
}.

#[global] Instance Call_eq_dec : EqDecision Call.
Proof. solve_decision. Defined.

Definition linearise_call (v c : SkipNodeReference) : Call :=
  {| target := v; method := "linearise"; argument := c |}.

(** ** SkipNode *)

Definition RS_BYTE_LENGTH : nat := 2.
Definition RS_BIT_LENGTH : nat := RS_BYTE_LENGTH * 8.

(** The attribute [_rs] of a node is the field [node_rs]; the name [_rs]
    is the field of a reference. *)
Record SkipNode : Type := mkSkipNode {
  reference : SkipNodeReference;
  node_rs : BitString;
  N : list SkipNodeReference;
  _ranges : gmap nat (list SkipNodeReference);
  _nodesInRanges : list SkipNodeReference
}.

Definition set_N (n : list SkipNodeReference) (self : SkipNode) : SkipNode :=
  {| reference := reference self; node_rs := node_rs self; N := n;
     _ranges := _ranges self; _nodesInRanges := _nodesInRanges self |}.

Definition set_ranges (r : gmap nat (list SkipNodeReference)) (self : SkipNode)
  : SkipNode :=
  {| reference := reference self; node_rs := node_rs self; N := N self;
     _ranges := r; _nodesInRanges := _nodesInRanges self |}.

Definition set_nodesInRanges (n : list SkipNodeReference) (self : SkipNode)
  : SkipNode :=
  {| reference := reference self; node_rs := node_rs self; N := N self;
     _ranges := _ranges self; _nodesInRanges := n |}.

(** [range(n)] *)
Definition range (n : nat) : list nat := seq 0 n.

(** [SkipNode.__init__(port)].  The host comes from the base class and
    the bit string from [randomBitArray(RS_BYTE_LENGTH)]; both are
    arguments here. *)
Definition SkipNode_init (h : string) (p : Z) (bits : BitString) : SkipNode :=
  {| reference := SkipNodeReference_init (Some h) (Some p) (Some bits);
     node_rs := bits;
     N := [];
     _ranges := list_to_map (map (fun i => (i, [])) (range (RS_BIT_LENGTH - 1)));
     _nodesInRanges := [] |}.

(** The remote method [rs] of a node. *)
Definition SkipNode_rs (self : SkipNode) : BitString := node_rs self.

(** [a.union(b)]: a new set; neither operand is changed. *)
Definition set_union (a b : list SkipNodeReference) : list SkipNodeReference :=
  a ++ filter (fun x => x ∉ a) b.

(** [a.difference(b)] *)
Definition set_difference (a b : list SkipNodeReference) : list SkipNodeReference :=
  filter (fun x => x ∉ b) a.

(** [s.add(x)]: a new element is put last. *)
Definition set_add (x : SkipNodeReference) (s : list SkipNodeReference)
  : list SkipNodeReference :=
  if decide (x ∈ s) then s else s ++ [x].

(** The loop of [updateRanges].  The value of
    [nodesInRanges.union(currentLevelRange)] is computed and dropped, as
    in the source: the local [nodesInRanges] is never rebound. *)
Fixpoint updateRanges_loop (levels : list nat)
    (nodesInRanges : list SkipNodeReference) (self : SkipNode)
  : result (list SkipNodeReference) * SkipNode :=
  match levels with
  | [] => (Ok nodesInRanges, self)
  | i :: levels' =>
      match skipRange i (reference self) (N self) with
      | Raise e => (Raise e, self)
      | Ok currentLevelRange =>
          let self := set_ranges (<[i := currentLevelRange]> (_ranges self)) self in
          let _ := set_union nodesInRanges currentLevelRange in
          updateRanges_loop levels' nodesInRanges self
      end
  end.

Definition updateRanges (self : SkipNode) : result unit * SkipNode :=
  let nodesInRanges := [] in
  match updateRanges_loop (range (RS_BIT_LENGTH - 1)) nodesInRanges self with
  | (Raise e, self) => (Raise e, self)
  | (Ok nodesInRanges, self) => (Ok tt, set_nodesInRanges nodesInRanges self)
  end.

(** The delegation loop of [linearise]: [N] is the neighbourhood after
    pruning. *)
Fixpoint delegate (undesirableNodes : list SkipNodeReference)
    (N : list SkipNodeReference) : result unit * list Call :=
  match undesirableNodes with
  | [] => (Ok tt, [])
  | w :: rest =>
      match longestCommonPrefixNode w N with
      | Raise e => (Raise e, [])
      | Ok delegationDestination =>
          let '(r, calls) := delegate rest N in
          (r, linearise_call delegationDestination w :: calls)
      end
  end.

(** [linearise(u)]: the outcome, the node afterwards and the calls
    issued.  When an exception is raised the state reached so far
    stays.  In the pruning branch [self.N = self._nodesInRanges] makes
    both fields name one set object; the copy made here is the same
    until one of them is written, and [linearise_fresh] below shows that
    the branch is not entered. *)
Definition linearise (u : SkipNodeReference) (self : SkipNode)
  : result unit * SkipNode * list Call :=
  if bool_decide (u ≠ reference self) && bool_decide (u ∉ N self) then
    let self := set_N (set_add u (N self)) self in
    match updateRanges self with
    | (Raise e, self) => (Raise e, self, [])
    | (Ok _, self) =>
        if bool_decide (length (_nodesInRanges self) = 0) then
          (Ok tt, self, [])
        else
          let undesirableNodes := set_difference (N self) (_nodesInRanges self) in
          let self := set_N (_nodesInRanges self) self in
          let '(r, calls) := delegate undesirableNodes (N self) in
          (r, self, calls)
    end
  else (Ok tt, self, []).

(** ** timeout *)

(** A computation that issues remote calls and may raise: the calls
    issued before the exception are kept. *)
Definition Out (A : Type) : Type := result A * list Call.

Definition ret_out {A : Type} (a : A) : Out A := (Ok a, []).

Definition emit (c : Call) : Out unit := (Ok tt, [c]).

Definition lift_out {A : Type} (m : result A) : Out A := (m, []).

Definition bind_out {A B : Type} (m : Out A) (k : A -> Out B) : Out B :=
  match m with
  | (Ok a, calls) => let '(r, calls') := k a in (r, calls ++ calls')
  | (Raise e, calls) => (Raise e, calls)
  end.

Notation "'do!' x ':=' m 'in' k" := (bind_out m (fun x => k))
  (at level 10, x name, m at level 100, k at level 200).

(** [l.sort()]: a stable sort that compares with [<] only. *)
Fixpoint sort_insert (x : SkipNodeReference) (l : list SkipNodeReference)
  : result (list SkipNodeReference) :=
  match l with
  | [] => Ok [x]
  | y :: l' =>
      let! b := ref_lt (real y) (real x) in
      if b then (let! r := sort_insert x l' in Ok (y :: r))
      else Ok (x :: y :: l')
  end.

Fixpoint py_sort (l : list SkipNodeReference) : result (list SkipNodeReference) :=
  match l with
  | [] => Ok []
  | x :: l' => let! s := py_sort l' in sort_insert x s
  end.

(** [l.sort(reverse=True)]: the list is reversed, sorted and reversed
    again, which keeps equal elements in their original order. *)
Definition py_sort_reverse (l : list SkipNodeReference)
  : result (list SkipNodeReference) :=
  let! s := py_sort (rev l) in Ok (rev s).

(** The loop that splits [_ranges[i]] about [self.reference]. *)
Fixpoint split_range (self_ref : SkipNodeReference) (xs : list SkipNodeReference)
    (leftRange rightRange : list SkipNodeReference)
  : result (list SkipNodeReference * list SkipNodeReference) :=
  match xs with
  | [] => Ok (leftRange, rightRange)
  | x :: xs' =>
      let! lt := ref_lt (real x) (real self_ref) in
      let leftRange := if lt then leftRange ++ [x] else leftRange in
      let! gt := ref_gt (real x) (real self_ref) in
      let rightRange := if gt then rightRange ++ [x] else rightRange in
      split_range self_ref xs' leftRange rightRange
  end.

(** Part a for one side [r].  The inner loop is
    [for i in range(len(r)-1)]: it assigns the same variable [i] that
    holds the level, so the value of [i] is threaded through and
    returned. *)
Fixpoint linearising_pairs (r : list SkipNodeReference) (ks : list nat) (i : nat)
  : list Call * nat :=
  match ks with
  | [] => ([], i)
  | k :: ks' =>
      let i := k in
      let call :=
        match r !! i, r !! (i + 1) with
        | Some a, Some b => [linearise_call a b]
        | _, _ => []
        end in
      let '(calls, i) := linearising_pairs r ks' i in
      (call ++ calls, i)
  end.

Definition linearising (self_ref : SkipNodeReference)
    (r : list SkipNodeReference) (i : nat) : list Call * nat :=
  let '(calls, i) := linearising_pairs r (range (length r - 1)) i in
  let closing :=
    match last r with
    | Some c => [linearise_call c self_ref]
    | None => []
    end in
  (calls ++ closing, i).

(** Part b for one ordered pair of sides. *)
Fixpoint bridging_loop (i : nat) (range1 : list SkipNodeReference)
    (closestRange2Node : SkipNodeReference) (N : list SkipNodeReference)
  : Out unit :=
  match range1 with
  | [] => ret_out tt
  | v :: range1' =>
      do! R := lift_out (skipRange i v N) in
      do! _ := (if bool_decide (closestRange2Node ∈ R)
                then emit (linearise_call v closestRange2Node)
                else ret_out tt) in
      bridging_loop i range1' closestRange2Node N
  end.

Definition bridging (i : nat) (range1 range2 : list SkipNodeReference)
    (N : list SkipNodeReference) : Out unit :=
  match last range2 with
  | None => ret_out tt
  | Some closestRange2Node => bridging_loop i range1 closestRange2Node N
  end.

(** The body of the outer loop of [timeout] at level [i]. *)
Definition timeout_level (self : SkipNode) (i : nat) : Out unit :=
  do! range_i := lift_out (match _ranges self !! i with
                           | Some r => Ok r
                           | None => Raise KeyError
                           end) in
  do! sides := lift_out (split_range (reference self) range_i [] []) in
  let '(leftRange, rightRange) := sides in
  do! leftRange := lift_out (py_sort leftRange) in
  do! rightRange := lift_out (py_sort_reverse rightRange) in
  let '(callsL, i) := linearising (reference self) leftRange i in
  let '(callsR, i) := linearising (reference self) rightRange i in
  do! _ := ((Ok tt, callsL ++ callsR) : Out unit) in
  do! _ := bridging i leftRange rightRange (N self) in
  bridging i rightRange leftRange (N self).

Fixpoint timeout_loop (self : SkipNode) (levels : list nat) : Out unit :=
  match levels with
  | [] => ret_out tt
  | i :: levels' =>
      do! _ := timeout_level self i in
      timeout_loop self levels'
  end.

(** [timeout()]: it reads the node and issues calls; the node itself is
    not written. *)
Definition timeout (self : SkipNode) : Out unit :=
  timeout_loop self (range (RS_BIT_LENGTH - 1)).

(** ** SkipNodeFactory *)

Record SkipNodeFactory : Type := mkSkipNodeFactory {
  startPort : Z;
  _entryNodeHost : option string;
  _entryNodePort : option Z;
  entryNodeReference : option SkipNodeReference;
  nodes : list SkipNode
}.

(** [SkipNodeFactory.__init__].  When both entry fields are given a
    remote [rs()] request is sent; its answer arrives later through
    [_gotEntryNodeRs]. *)
Definition SkipNodeFactory_init (start : Z) (entryNodeHost : option string)
    (entryNodePort : option Z) : SkipNodeFactory :=
  {| startPort := start;
     _entryNodeHost := entryNodeHost;
     _entryNodePort := entryNodePort;
     entryNodeReference := None;
     nodes := [] |}.

(** Whether the constructor has sent the [rs()] request. *)
Definition entry_configured (f : SkipNodeFactory) : bool :=
  bool_decide (_entryNodeHost f ≠ None) && bool_decide (_entryNodePort f ≠ None).

(** A method call on a local node object, recorded under the node's own
    reference. *)
Definition local_call (n : SkipNode) (name : string) (arg : SkipNodeReference)
  : Call :=
  {| target := reference n; method := name; argument := arg |}.

Section Factory.

(** [SkipNode] defines no method [introduce]; what the base class
    [Node] of [vaud.core] does under that name is not part of the
    sources and is left open. *)
Variable introduce :
  SkipNodeReference -> SkipNode -> result unit * SkipNode * list Call.

(** The host name every local node gets from the base class. *)
Variable thisHost : string.

(** [nodes[0] = n] *)
Definition set_first_node (n : SkipNode) (f : SkipNodeFactory) : SkipNodeFactory :=
  {| startPort := startPort f;
     _entryNodeHost := _entryNodeHost f;
     _entryNodePort := _entryNodePort f;
     entryNodeReference := entryNodeReference f;
     nodes := <[0 := n]> (nodes f) |}.

(** [_gotEntryNodeRs(rs)]: the factory afterwards and the calls made,
    local calls on node objects first. *)
Definition _gotEntryNodeRs (bits : BitString) (f : SkipNodeFactory)
  : result unit * SkipNodeFactory * list Call :=
  let entry :=
    SkipNodeReference_init (_entryNodeHost f) (_entryNodePort f) (Some bits) in
  let f :=
    {| startPort := startPort f;
       _entryNodeHost := _entryNodeHost f;
       _entryNodePort := _entryNodePort f;
       entryNodeReference := Some entry;
       nodes := nodes f |} in
  match nodes f !! 0 with
  | Some first =>
      let '(r, first', calls) := introduce entry first in
      (r, set_first_node first' f, local_call first "introduce" entry :: calls)
  | None => (Ok tt, f, [])
  end.

(** [_initNode(port, isFirstNode)]: the node returned and the calls
    made.  [bits] is the random bit string drawn by the constructor. *)
Definition _initNode (f : SkipNodeFactory) (p : Z) (bits : BitString)
    (isFirstNode : bool) : result SkipNode * list Call :=
  let node := SkipNode_init thisHost p bits in
  if isFirstNode then
    match entryNodeReference f with
    | Some entry =>
        let '(r, node', calls) := linearise entry node in
        (let! _ := r in Ok node', local_call node "linearise" entry :: calls)
    | None => (Ok node, [])
    end
  else
    match last (nodes f) with
    | Some prev =>
        let '(r, node', calls) := linearise (reference prev) node in
        (let! _ := r in Ok node',
         local_call node "linearise" (reference prev) :: calls)
    | None => (Raise IndexError, [])
    end.

(** Modelled from the spec: [newNode] belongs to the base class
    [NodeFactory] of [vaud.core], which is not part of the sources.  It
    creates a node on the next consecutive port through [_initNode],
    telling it whether it is the first local node, and appends it to
    the list of nodes. *)
Definition newNode (bits : BitString) (f : SkipNodeFactory)
  : result unit * SkipNodeFactory * list Call :=
  let p := (startPort f + Z.of_nat (length (nodes f)))%Z in
  let isFirstNode := bool_decide (length (nodes f) = 0) in
  match _initNode f p bits isFirstNode with
  | (Ok node, calls) =>
      (Ok tt,
       {| startPort := startPort f;
          _entryNodeHost := _entryNodeHost f;
          _entryNodePort := _entryNodePort f;
          entryNodeReference := entryNodeReference f;
          nodes := nodes f ++ [node] |},
       calls)
  | (Raise e, calls) => (Raise e, f, calls)
  end.

End Factory.

(** * Vocabulary of the statements *)

(** A reference that carries a bit string. *)
Definition has_rs (v : SkipNodeReference) : Prop := _rs v <> None.

#[global] Instance has_rs_dec (v : SkipNodeReference) : Decision (has_rs v).
Proof. unfold has_rs. apply _. Defined.

Definition wf_ref (r : Ref) : Prop :=
  match r with
  | real v => has_rs v
  | _ => True
  end.

(** Two references the order cannot tell apart. *)
Definition same_rank (a b : Ref) : Prop :=
  match a, b with
  | lowest, lowest => True
  | highest, highest => True
  | real x, real y => _rs x = _rs y
  | _, _ => False
  end.

(** [m] is a greatest, resp. least, element of [l]. *)
Definition is_greatest (m : Ref) (l : list Ref) : Prop :=
  m ∈ l /\ forall x, x ∈ l -> ref_lt m x = Ok false.

Definition is_least (m : Ref) (l : list Ref) : Prop :=
  m ∈ l /\ forall x, x ∈ l -> ref_lt x m = Ok false.

(** Membership in a computed range, read off the comprehension. *)
Definition in_range (i : nat) (v : SkipNodeReference)
    (N : list SkipNodeReference) (w : SkipNodeReference) : Prop :=
  exists pw l h,
    prefix i w = Ok pw /\ prefix i v = Ok pw /\
    low i v N = Ok l /\ high i v N = Ok h /\
    ref_le l (real w) = Ok true /\ ref_le (real w) h = Ok true.

(** The calls a node receives.  [timeout] has no assignment to a field
    of the node: it only issues calls. *)
Inductive Op : Type :=
| call_linearise (u : SkipNodeReference)
| call_timeout.

Definition step (s : SkipNode) (o : Op) : SkipNode :=
  match o with
  | call_linearise u => (linearise u s).1.2
  | call_timeout => s
  end.

Definition run (ops : list Op) (s : SkipNode) : SkipNode := foldl step s ops.

(** The references handed to [linearise] carry a bit string: they come
    off the wire, where [setCopyableState] has stored one, or from the
    factory, which builds them with one. *)
Definition op_has_rs (o : Op) : Prop :=
  match o with
  | call_linearise u => has_rs u
  | call_timeout => True
  end.

#[global] Instance op_has_rs_dec (o : Op) : Decision (op_has_rs o).
Proof. destruct o; apply _. Defined.

(** What holds of a node between calls, as long as every reference it
    is given carries a bit string. *)
Definition node_inv (s : SkipNode) : Prop :=
  has_rs (reference s) /\ Forall has_rs (N s) /\ NoDup (N s) /\
  forall i, i < RS_BIT_LENGTH - 1 ->
    exists R, _ranges s !! i = Some R /\
              skipRange i (reference s) (N s) = Ok R.

(** The greatest, resp. least, of two references in the order on
    references. *)
Definition is_maximum (m a b : Ref) : Prop :=
  (m = a \/ m = b) /\ ref_le a m = Ok true /\ ref_le b m = Ok true.

Definition is_minimum (m a b : Ref) : Prop :=
  (m = a \/ m = b) /\ ref_le m a = Ok true /\ ref_le m b = Ok true.

(** The value of [i] when part b starts in the iteration of [timeout]
    for level [i]: the last index the inner loops of part a have
    assigned, if any. *)
Definition bridging_level (i : nat) (leftRange rightRange : list SkipNodeReference)
  : nat :=
  if bool_decide (2 <= length rightRange) then length rightRange - 2
  else if bool_decide (2 <= length leftRange) then length leftRange - 2
  else i.

(** A bit string written as a string of the characters 0 and 1. *)
Fixpoint bits (s : string) : BitString :=
  match s with
  | EmptyString => []
  | String c s' => bool_decide (c = "1"%char) :: bits s'
  end.

Definition example_ref (p : Z) (s : string) : SkipNodeReference :=
  SkipNodeReference_init (Some "localhost") (Some p) (Some (bits s)).

Definition x1 : SkipNodeReference := example_ref 33001 "0001000000000000".
Definition x2 : SkipNodeReference := example_ref 33002 "0010000000000000".
Definition x3 : SkipNodeReference := example_ref 33003 "0100000000000000".
Definition x4 : SkipNodeReference := example_ref 33004 "1100000000000000".

(** A node with bit string 1000000000000000 that has been introduced to
    [x1], [x2], [x3] and [x4], in this order. *)
Definition example_ops : list Op :=
  [call_linearise x1; call_linearise x2; call_timeout;
   call_linearise x3; call_linearise x4].

Definition example_node : SkipNode :=
  run example_ops (SkipNode_init "localhost" 33000 (bits "1000000000000000")).

(** [linearise(u)] called [k] times in a row. *)
Fixpoint linearise_times (k : nat) (u : SkipNodeReference) (s : SkipNode)
  : SkipNode :=
  match k with
  | 0 => s
  | S k' => linearise_times k' u (linearise u s).1.2
  end.

(** [x] is the first element of [l] whose key is greatest. *)
Definition first_maximiser {A : Type} (key : A -> result nat)
    (x : A) (l : list A) : Prop :=
  exists pre post kx,
    l = pre ++ x :: post /\ key x = Ok kx /\
    (forall y, y ∈ pre -> exists ky, key y = Ok ky /\ ky < kx) /\
    (forall y, y ∈ post -> exists ky, key y = Ok ky /\ ky <= kx).

(** The rule under which ties go to the element that is least
    ([least = true]) or greatest ([least = false]) in the order on
    [rs]. *)
Definition tie_broken_by_rs (least : bool) : Prop :=
  forall (w : SkipNodeReference) (W : list SkipNodeReference)
         (x y : SkipNodeReference) (k : nat),
    longestCommonPrefixNode w W = Ok x -> y ∈ W ->
    commonPrefixKey w x = Ok k -> commonPrefixKey w y = Ok k ->
    (if least then ref_le (real x) (real y) else ref_le (real y) (real x))
    = Ok true.

(** What [updateRanges] is meant to leave in [_nodesInRanges]: the union
    of the ranges of all levels. *)
Definition is_union_of_ranges (s : SkipNode) (U : list SkipNodeReference) : Prop :=
  forall w, w ∈ U <->
    exists i R, i < RS_BIT_LENGTH - 1 /\ _ranges s !! i = Some R /\ w ∈ R.

(** A new node with bit string 1000000000000000 whose [N] has just
    received [x4]. *)
Definition one_neighbour : SkipNode :=
  set_N [x4] (SkipNode_init "localhost" 33000 (bits "1000000000000000")).

(** A factory with an entry node configured, whose first local node is
    created before the entry node's bit string has arrived. *)
Definition factory_with_entry : SkipNodeFactory :=
  SkipNodeFactory_init 33000 (Some "entry.example") (Some 33000%Z).

Definition factory_first_node : SkipNodeFactory :=
  (newNode "localhost" (bits "1000000000000000") factory_with_entry).1.2.

Definition entry_ref : SkipNodeReference :=
  SkipNodeReference_init (Some "entry.example") (Some 33000%Z)
    (Some (bits "1100000000000000")).

(** A computation whose only exception is the [AttributeError] of a
    missing bit string. *)
Definition only_AttributeError {A : Type} (m : result A) : Prop :=
  forall e, m = Raise e -> e = AttributeError.

(** A call [timeout] may issue from the node [s]: [linearise], on a
    neighbour that is not the node itself, with a neighbour or the node's
    own reference as argument. *)
Definition neighbour_call (s : SkipNode) (c : Call) : Prop :=
  method c = "linearise" /\
  target c ∈ N s /\ target c <> reference s /\
  (argument c ∈ N s \/ argument c = reference s).

Definition x5 : SkipNodeReference := example_ref 33005 "1000000000000000".

(** A node with bit string 1100000000000000 that has been introduced to
    [x1] and [x3]; [linearise(x5)] is the call looked at. *)
Definition outlier_node : SkipNode :=
  run [call_linearise x1; call_linearise x3]
    (SkipNode_init "localhost" 33006 (bits "1100000000000000")).

(** * Properties *)

(** ** The exception monad *)

Lemma bind_Ok {A B : Type} (m : result A) (k : A -> result B) (b : B) :
  bind m k = Ok b -> exists a, m = Ok a /\ k a = Ok b.
Proof. destruct m as [a|e]; simpl; [eauto | discriminate]. Qed.

Lemma bind_Ok_l {A B : Type} (m : result A) (k : A -> result B) (a : A) :
  m = Ok a -> bind m k = k a.
Proof. by intros ->. Qed.

(** Splits every successful [bind] among the hypotheses. *)
Ltac inv_bind :=
  repeat match goal with
  | H : bind _ _ = Ok _ |- _ =>
      let a := fresh "a" in
      let Ha := fresh "Ha" in
      apply bind_Ok in H as (a & Ha & H)
  | H : Ok _ = Ok _ |- _ => injection H as H
  | H : Raise _ = Ok _ |- _ => discriminate H
  end.

(** ** Comprehensions *)

Section FilterM.
Context {A : Type} (p : A -> result bool).

Lemma filterM_elem_of (l r : list A) :
  filterM p l = Ok r -> forall x, x ∈ r <-> x ∈ l /\ p x = Ok true.
Proof.
  revert r. induction l as [|y l IH]; intros r H x; simpl in H.
  - inv_bind. subst r. split; [intros Hx | intros [Hx _]]; by inversion Hx.
  - inv_bind. subst r. rename a into b, a0 into r'.
    specialize (IH r' Ha0 x).
    destruct b.
    + rewrite !elem_of_cons, IH. split.
      * intros [-> | [? ?]]; auto.
      * intros [[-> | ?] ?]; auto.
    + rewrite elem_of_cons, IH. split.
      * intros [? ?]; auto.
      * intros [[-> | ?] ?]; [congruence | auto].
Qed.

Lemma filterM_defined (l r : list A) :
  filterM p l = Ok r -> forall x, x ∈ l -> exists b, p x = Ok b.
Proof.
  revert r. induction l as [|y l IH]; intros r H x Hx; simpl in H.
  - inversion Hx.
  - inv_bind. apply elem_of_cons in Hx as [-> | Hx]; eauto.
Qed.

Lemma filterM_total (l : list A) :
  (forall x, x ∈ l -> exists b, p x = Ok b) -> exists r, filterM p l = Ok r.
Proof.
  induction l as [|y l IH]; intros H; simpl.
  - eauto.
  - destruct (H y) as [b Hb]; [left |].
    destruct IH as [r Hr]; [intros x Hx; apply H; by right |].
    rewrite Hb, Hr. simpl. eauto.
Qed.

Lemma filterM_sublist (l r : list A) :
  filterM p l = Ok r -> sublist r l.
Proof.
  revert r. induction l as [|y l IH]; intros r H; simpl in H.
  - inv_bind. by subst r.
  - inv_bind. subst r. destruct a.
    + apply sublist_skip; auto.
    + apply sublist_cons; auto.
Qed.

Lemma filterM_subseteq (l r : list A) :
  filterM p l = Ok r -> r ⊆ l.
Proof. intros H. apply sublist_subseteq. by eapply filterM_sublist. Qed.

Lemma filterM_NoDup (l r : list A) :
  filterM p l = Ok r -> NoDup l -> NoDup r.
Proof. intros H Hl. eapply sublist_NoDup; [done | by eapply filterM_sublist]. Qed.

End FilterM.

(** ** The order on bit strings and references *)

Lemma bits_ltb_irrefl (a : BitString) : bits_ltb a a = false.
Proof.
  induction a as [|x a IH]; simpl; [done |].
  by rewrite Bool.eqb_reflx.
Qed.

Lemma bits_ltb_asym (a b : BitString) :
  bits_ltb a b = true -> bits_ltb b a = false.
Proof.
  revert b. induction a as [|x a IH]; intros [|y b]; simpl; try done.
  destruct x, y; simpl; auto.
Qed.

Lemma bits_ltb_trans (a b c : BitString) :
  bits_ltb a b = true -> bits_ltb b c = true -> bits_ltb a c = true.
Proof.
  revert b c. induction a as [|x a IH]; intros [|y b] [|z c]; simpl; try done.
  destruct x, y, z; simpl; try done; eauto.
Qed.

Lemma bits_ltb_total (a b : BitString) :
  bits_ltb a b = false -> bits_ltb b a = false -> a = b.
Proof.
  revert b. induction a as [|x a IH]; intros [|y b]; simpl; try done.
  destruct x, y; simpl; try done; intros; f_equal; auto.
Qed.

Lemma has_rs_rs (v : SkipNodeReference) :
  has_rs v <-> exists b, rs v = Ok b.
Proof.
  unfold has_rs, rs. destruct (_rs v); split; try done; eauto.
  by intros [b ?].
Qed.

Lemma rs_Ok (v : SkipNodeReference) (b : BitString) :
  rs v = Ok b <-> _rs v = Some b.
Proof. unfold rs. destruct (_rs v); split; congruence. Qed.

Lemma ref_lt_total (a b : Ref) :
  wf_ref a -> wf_ref b -> exists c, ref_lt a b = Ok c.
Proof.
  destruct a as [| |x], b as [| |y]; simpl; eauto.
  intros [rx Hx]%has_rs_rs [ry Hy]%has_rs_rs. rewrite Hx, Hy. simpl. eauto.
Qed.

Lemma ref_lt_irrefl (a : Ref) (c : bool) : ref_lt a a = Ok c -> c = false.
Proof.
  destruct a as [| |x]; simpl; try congruence.
  intros H. inv_bind. subst c. assert (a = a0) as -> by congruence.
  apply bits_ltb_irrefl.
Qed.

Lemma ref_lt_asym (a b : Ref) :
  ref_lt a b = Ok true -> ref_lt b a = Ok false.
Proof.
  destruct a as [| |x], b as [| |y]; simpl; try congruence.
  intros H. inv_bind. rewrite Ha0, Ha. simpl. f_equal. by apply bits_ltb_asym.
Qed.

Lemma ref_le_refl (a : Ref) : wf_ref a -> ref_le a a = Ok true.
Proof.
  intros Ha. unfold ref_le.
  destruct (ref_lt_total a a Ha Ha) as [c Hc]. rewrite Hc. simpl.
  by rewrite (ref_lt_irrefl _ _ Hc).
Qed.

Lemma ref_lt_le (a b : Ref) : ref_lt a b = Ok true -> ref_le a b = Ok true.
Proof. intros H. unfold ref_le. by rewrite (ref_lt_asym _ _ H). Qed.

Lemma ref_not_lt_le (a b : Ref) : ref_lt a b = Ok false -> ref_le b a = Ok true.
Proof. intros H. unfold ref_le. by rewrite H. Qed.

(** ** No exception on references that carry a bit string *)

Lemma max_from_total (cur : Ref) (l : list Ref) :
  wf_ref cur -> Forall wf_ref l ->
  exists m, max_from cur l = Ok m /\ wf_ref m.
Proof.
  revert cur. induction l as [|x l IH]; intros cur Hcur Hl; simpl.
  - eauto.
  - apply Forall_cons in Hl as [Hx Hl].
    destruct (ref_lt_total cur x Hcur Hx) as [c Hc].
    unfold ref_gt. rewrite Hc. simpl. apply IH; [by destruct c | done].
Qed.

Lemma min_from_total (cur : Ref) (l : list Ref) :
  wf_ref cur -> Forall wf_ref l ->
  exists m, min_from cur l = Ok m /\ wf_ref m.
Proof.
  revert cur. induction l as [|x l IH]; intros cur Hcur Hl; simpl.
  - eauto.
  - apply Forall_cons in Hl as [Hx Hl].
    destruct (ref_lt_total x cur Hx Hcur) as [c Hc].
    rewrite Hc. simpl. apply IH; [by destruct c | done].
Qed.

Lemma py_max_total (l : list Ref) :
  l <> [] -> Forall wf_ref l -> exists m, py_max l = Ok m /\ wf_ref m.
Proof.
  destruct l as [|x l]; [done |]. intros _ [Hx Hl]%Forall_cons.
  by apply max_from_total.
Qed.

Lemma py_min_total (l : list Ref) :
  l <> [] -> Forall wf_ref l -> exists m, py_min l = Ok m /\ wf_ref m.
Proof.
  destruct l as [|x l]; [done |]. intros _ [Hx Hl]%Forall_cons.
  by apply min_from_total.
Qed.

Lemma prefix_total (i : nat) (v : SkipNodeReference) :
  has_rs v -> exists p, prefix i v = Ok p.
Proof. intros [b Hb]%has_rs_rs. unfold prefix. rewrite Hb. simpl. eauto. Qed.

Lemma Forall_wf_real (l : list SkipNodeReference) (r : Ref) :
  Forall has_rs l -> wf_ref r -> Forall wf_ref (map real l ++ [r]).
Proof.
  intros Hl Hr. apply Forall_app. split.
  - apply Forall_fmap. by eapply Forall_impl.
  - by apply Forall_singleton.
Qed.

Lemma filterM_has_rs (p : SkipNodeReference -> result bool)
    (l r : list SkipNodeReference) :
  filterM p l = Ok r -> Forall has_rs l -> Forall has_rs r.
Proof.
  intros H Hl. rewrite Forall_forall in *. intros x Hx.
  apply Hl. by eapply filterM_subseteq.
Qed.

Lemma pred_total (v : SkipNodeReference) (W : list SkipNodeReference) :
  has_rs v -> Forall has_rs W -> exists m, pred v W = Ok m /\ wf_ref m.
Proof.
  intros Hv HW. unfold pred.
  destruct (filterM_total (fun w => ref_lt (real w) (real v)) W) as [below Hb].
  { intros x Hx. apply ref_lt_total; [| done].
    rewrite Forall_forall in HW. by apply HW. }
  rewrite Hb. simpl. apply py_max_total.
  - by destruct (map real below).
  - apply Forall_wf_real; [by eapply filterM_has_rs | done].
Qed.

Lemma succ_total (v : SkipNodeReference) (W : list SkipNodeReference) :
  has_rs v -> Forall has_rs W -> exists m, succ v W = Ok m /\ wf_ref m.
Proof.
  intros Hv HW. unfold succ.
  destruct (filterM_total (fun w => ref_gt (real w) (real v)) W) as [above Ha].
  { intros x Hx. apply ref_lt_total; [done |].
    rewrite Forall_forall in HW. by apply HW. }
  rewrite Ha. simpl. apply py_min_total.
  - by destruct (map real above).
  - apply Forall_wf_real; [by eapply filterM_has_rs | done].
Qed.

Lemma _levelNodes_total (i : nat) (v : SkipNodeReference) (x : bool)
    (N : list SkipNodeReference) :
  has_rs v -> Forall has_rs N ->
  exists W, _levelNodes i v x N = Ok W /\ Forall has_rs W.
Proof.
  intros Hv HN. unfold _levelNodes.
  destruct (prefix_total i v Hv) as [pv Hpv]. rewrite Hpv. simpl.
  match goal with |- context [filterM ?p N] =>
    destruct (filterM_total p N) as [W HW] end.
  { intros w Hw. rewrite Forall_forall in HN.
    destruct (prefix_total (i + 1) w (HN w Hw)) as [pw Hpw].
    rewrite Hpw. simpl. eauto. }
  exists W. split; [done |]. by eapply filterM_has_rs.
Qed.

Lemma levelPred_total (i : nat) (v : SkipNodeReference) (x : bool)
    (N : list SkipNodeReference) :
  has_rs v -> Forall has_rs N ->
  exists m, levelPred i v x N = Ok m /\ wf_ref m.
Proof.
  intros Hv HN. unfold levelPred.
  destruct (_levelNodes_total i v x N Hv HN) as (W & -> & HW). simpl.
  by apply pred_total.
Qed.

Lemma levelSucc_total (i : nat) (v : SkipNodeReference) (x : bool)
    (N : list SkipNodeReference) :
  has_rs v -> Forall has_rs N ->
  exists m, levelSucc i v x N = Ok m /\ wf_ref m.
Proof.
  intros Hv HN. unfold levelSucc.
  destruct (_levelNodes_total i v x N Hv HN) as (W & -> & HW). simpl.
  by apply succ_total.
Qed.

Lemma low_total (i : nat) (v : SkipNodeReference) (N : list SkipNodeReference) :
  has_rs v -> Forall has_rs N -> exists m, low i v N = Ok m /\ wf_ref m.
Proof.
  intros Hv HN. unfold low.
  destruct (levelPred_total i v false N Hv HN) as (p0 & -> & H0).
  destruct (levelPred_total i v true N Hv HN) as (p1 & -> & H1). simpl.
  destruct (ref_lt_total p1 p0 H1 H0) as [c ->]. simpl.
  exists (if c then p1 else p0). split; [done | by destruct c].
Qed.

Lemma high_total (i : nat) (v : SkipNodeReference) (N : list SkipNodeReference) :
  has_rs v -> Forall has_rs N -> exists m, high i v N = Ok m /\ wf_ref m.
Proof.
  intros Hv HN. unfold high.
  destruct (levelSucc_total i v false N Hv HN) as (s0 & -> & H0).
  destruct (levelSucc_total i v true N Hv HN) as (s1 & -> & H1). simpl.
  unfold ref_gt. destruct (ref_lt_total s0 s1 H0 H1) as [c ->]. simpl.
  exists (if c then s1 else s0). split; [done | by destruct c].
Qed.

Lemma skipRange_total (i : nat) (v : SkipNodeReference)
    (N : list SkipNodeReference) :
  has_rs v -> Forall has_rs N ->
  exists R, skipRange i v N = Ok R /\ Forall has_rs R.
Proof.
  intros Hv HN. unfold skipRange.
  destruct (prefix_total i v Hv) as [pv ->].
  destruct (low_total i v N Hv HN) as (l & -> & Hl).
  destruct (high_total i v N Hv HN) as (h & -> & Hh). simpl.
  match goal with |- context [filterM ?p N] =>
    destruct (filterM_total p N) as [R HR] end.
  { intros w Hw. rewrite Forall_forall in HN. specialize (HN w Hw).
    destruct (prefix_total i w HN) as [pw ->]. simpl.
    destruct (bits_eqb pw pv); [| eauto].
    unfold ref_le.
    destruct (ref_lt_total (real w) l HN Hl) as [c ->]. simpl.
    destruct c; simpl; [eauto |].
    destruct (ref_lt_total h (real w) Hh HN) as [d ->]. simpl. eauto. }
  exists R. split; [done |]. by eapply filterM_has_rs.
Qed.

(** ** skipRange *)

Lemma skipRange_elem_of (i : nat) (v : SkipNodeReference)
    (N R : list SkipNodeReference) :
  skipRange i v N = Ok R ->
  forall w, w ∈ R <-> w ∈ N /\ in_range i v N w.
Proof.
  intros H w. unfold skipRange in H. inv_bind.
  rename a into pv, a0 into l, a1 into h.
  rewrite (filterM_elem_of _ _ _ H w). unfold in_range.
  split; intros [Hw Hin]; (split; [done |]).
  - inv_bind. rename a into pw. unfold bits_eqb in Hin.
    case_bool_decide as Hp; [subst pw | discriminate].
    inv_bind. destruct a; [| discriminate].
    exists pv, l, h. by repeat split.
  - destruct Hin as (pw & l' & h' & Hpw & Hpv & Hl & Hh & Hle1 & Hle2).
    assert (pw = pv) as -> by congruence.
    assert (l' = l) as -> by congruence.
    assert (h' = h) as -> by congruence.
    rewrite Hpw. simpl. unfold bits_eqb. rewrite bool_decide_eq_true_2 by done.
    by rewrite Hle1.
Qed.

Lemma skipRange_subseteq (i : nat) (v : SkipNodeReference)
    (N R : list SkipNodeReference) :
  skipRange i v N = Ok R -> R ⊆ N.
Proof.
  intros H w Hw. by apply (skipRange_elem_of _ _ _ _ H).
Qed.

Lemma skipRange_NoDup (i : nat) (v : SkipNodeReference)
    (N R : list SkipNodeReference) :
  skipRange i v N = Ok R -> NoDup N -> NoDup R.
Proof.
  unfold skipRange. intros H. inv_bind. by eapply filterM_NoDup.
Qed.

(** ** Independence of the iteration order *)

Lemma same_rank_refl (a : Ref) : same_rank a a.
Proof. by destruct a. Qed.

Lemma same_rank_lt_l (a a' b : Ref) :
  same_rank a a' -> ref_lt a b = ref_lt a' b.
Proof.
  destruct a as [| |x], a' as [| |x'], b as [| |y]; simpl; try done.
  intros H. unfold rs. by rewrite H.
Qed.

Lemma same_rank_lt_r (a b b' : Ref) :
  same_rank b b' -> ref_lt a b = ref_lt a b'.
Proof.
  destruct a as [| |x], b as [| |y], b' as [| |y']; simpl; try done.
  intros H. unfold rs. by rewrite H.
Qed.

Lemma bits_ltb_neg_trans (a b c : BitString) :
  bits_ltb a b = false -> bits_ltb b c = false -> bits_ltb a c = false.
Proof.
  intros Hab Hbc. destruct (bits_ltb a c) eqn:Hac; [| done].
  destruct (bits_ltb b a) eqn:Hba.
  - by rewrite (bits_ltb_trans b a c Hba Hac) in Hbc.
  - rewrite (bits_ltb_total a b Hab Hba) in Hac. congruence.
Qed.

Lemma ref_lt_neg_trans (a b c : Ref) :
  ref_lt a b = Ok false -> ref_lt b c = Ok false -> ref_lt a c = Ok false.
Proof.
  destruct a as [| |x], b as [| |y], c as [| |z]; simpl; try done.
  unfold rs. destruct (_rs x), (_rs y), (_rs z); simpl; try done.
  intros [= H1] [= H2]. f_equal. by eapply bits_ltb_neg_trans.
Qed.

Lemma no_lt_same_rank (a b : Ref) :
  ref_lt a b = Ok false -> ref_lt b a = Ok false -> same_rank a b.
Proof.
  destruct a as [| |x], b as [| |y]; simpl; try done.
  unfold rs. destruct (_rs x), (_rs y); simpl; try done.
  intros [= H1] [= H2]. f_equal. by apply bits_ltb_total.
Qed.

Lemma max_from_greatest (cur : Ref) (l : list Ref) (m : Ref) :
  wf_ref cur -> Forall wf_ref l ->
  max_from cur l = Ok m -> is_greatest m (cur :: l).
Proof.
  revert cur. induction l as [|x l IH]; intros cur Hcur Hl H; simpl in H.
  - injection H as <-. split; [left |].
    intros y Hy. apply list_elem_of_singleton in Hy. subst y.
    destruct (ref_lt_total cur cur Hcur Hcur) as [c Hc].
    by rewrite Hc, (ref_lt_irrefl _ _ Hc).
  - inv_bind. rename a into c. unfold ref_gt in Ha.
    apply Forall_cons in Hl as [Hx Hl].
    destruct c.
    + destruct (IH x Hx Hl H) as [Hin Hmax]. split.
      * right. done.
      * intros y [-> | Hy]%elem_of_cons; [| by apply Hmax].
        eapply ref_lt_neg_trans; [apply Hmax; left |].
        by apply ref_lt_asym.
    + destruct (IH cur Hcur Hl H) as [Hin Hmax]. split.
      * apply elem_of_cons in Hin as [-> | Hin]; [left | right; by right].
      * intros y [-> | [-> | Hy]%elem_of_cons]%elem_of_cons.
        -- apply Hmax. left.
        -- eapply ref_lt_neg_trans; [apply Hmax; left | done].
        -- apply Hmax. by right.
Qed.

Lemma min_from_least (cur : Ref) (l : list Ref) (m : Ref) :
  wf_ref cur -> Forall wf_ref l ->
  min_from cur l = Ok m -> is_least m (cur :: l).
Proof.
  revert cur. induction l as [|x l IH]; intros cur Hcur Hl H; simpl in H.
  - injection H as <-. split; [left |].
    intros y Hy. apply list_elem_of_singleton in Hy. subst y.
    destruct (ref_lt_total cur cur Hcur Hcur) as [c Hc].
    by rewrite Hc, (ref_lt_irrefl _ _ Hc).
  - inv_bind. rename a into c.
    apply Forall_cons in Hl as [Hx Hl].
    destruct c.
    + destruct (IH x Hx Hl H) as [Hin Hmin]. split.
      * right. done.
      * intros y [-> | Hy]%elem_of_cons; [| by apply Hmin].
        eapply ref_lt_neg_trans; [by apply ref_lt_asym | apply Hmin; left].
    + destruct (IH cur Hcur Hl H) as [Hin Hmin]. split.
      * apply elem_of_cons in Hin as [-> | Hin]; [left | right; by right].
      * intros y [-> | [-> | Hy]%elem_of_cons]%elem_of_cons.
        -- apply Hmin. left.
        -- eapply ref_lt_neg_trans; [done | apply Hmin; left].
        -- apply Hmin. by right.
Qed.

Lemma greatest_same_rank (m m' : Ref) (l l' : list Ref) :
  l ≡ₚ l' -> is_greatest m l -> is_greatest m' l' -> same_rank m m'.
Proof.
  intros Hp [Hin Hmax] [Hin' Hmax'].
  apply no_lt_same_rank.
  - apply Hmax. by rewrite Hp.
  - apply Hmax'. by rewrite <- Hp.
Qed.

Lemma least_same_rank (m m' : Ref) (l l' : list Ref) :
  l ≡ₚ l' -> is_least m l -> is_least m' l' -> same_rank m m'.
Proof.
  intros Hp [Hin Hmin] [Hin' Hmin'].
  apply no_lt_same_rank.
  - apply Hmin'. by rewrite <- Hp.
  - apply Hmin. by rewrite Hp.
Qed.

Lemma filterM_ext {A : Type} (p q : A -> result bool) (l : list A) :
  (forall x, x ∈ l -> p x = q x) -> filterM p l = filterM q l.
Proof.
  induction l as [|x l IH]; intros H; simpl; [done |].
  rewrite (H x) by left. rewrite IH; [done |].
  intros y Hy. apply H. by right.
Qed.

Lemma filterM_Permutation {A : Type} (p : A -> result bool) (l l' r : list A) :
  l ≡ₚ l' -> filterM p l = Ok r ->
  exists r', filterM p l' = Ok r' /\ r ≡ₚ r'.
Proof.
  intros Hp. revert r.
  induction Hp as [|x l l' Hp IH|x y l|l l' l'' Hp1 IH1 Hp2 IH2]; intros r H.
  - exists r. done.
  - simpl in H. inv_bind. subst r.
    destruct (IH _ Ha0) as (r' & Hr' & Hperm).
    exists (if a then x :: r' else r'). simpl. rewrite Ha, Hr'. simpl.
    split; [done |]. destruct a; [by constructor | done].
  - simpl in H.
    apply bind_Ok in H as (by' & Hy & H). apply bind_Ok in H as (r1 & H1 & H).
    apply bind_Ok in H1 as (bx & Hx & H1). apply bind_Ok in H1 as (r0 & H0 & H1).
    injection H1 as <-. injection H as <-.
    simpl. rewrite Hx, Hy, H0. simpl.
    eexists. split; [done |].
    destruct bx, by'; try done. apply perm_swap.
  - destruct (IH1 _ H) as (r' & Hr' & Hperm).
    destruct (IH2 _ Hr') as (r'' & Hr'' & Hperm').
    exists r''. split; [done | by etrans].
Qed.

Lemma wf_real_list (l : list SkipNodeReference) :
  Forall has_rs l -> Forall wf_ref (map real l).
Proof. intros H. apply Forall_fmap. by eapply Forall_impl. Qed.

Lemma py_max_greatest (l : list Ref) (m : Ref) :
  Forall wf_ref l -> py_max l = Ok m -> is_greatest m l.
Proof.
  destruct l as [|x l]; [done |]. intros [Hx Hl]%Forall_cons H.
  by apply max_from_greatest.
Qed.

Lemma py_min_least (l : list Ref) (m : Ref) :
  Forall wf_ref l -> py_min l = Ok m -> is_least m l.
Proof.
  destruct l as [|x l]; [done |]. intros [Hx Hl]%Forall_cons H.
  by apply min_from_least.
Qed.

Lemma pred_Permutation (v : SkipNodeReference) (W W' : list SkipNodeReference)
    (m : Ref) :
  Forall has_rs W -> W ≡ₚ W' -> pred v W = Ok m ->
  exists m', pred v W' = Ok m' /\ same_rank m m'.
Proof.
  intros HW Hp H. unfold pred in *. inv_bind. rename a into below.
  destruct (filterM_Permutation _ _ _ _ Hp Ha) as (below' & Hb' & Hperm).
  rewrite Hb'. simpl.
  assert (Forall wf_ref (map real below ++ [lowest])) as Hwf.
  { apply Forall_wf_real; [by eapply filterM_has_rs | done]. }
  assert (map real below ++ [lowest] ≡ₚ map real below' ++ [lowest]) as Hperm'.
  { by rewrite Hperm. }
  destruct (py_max_total (map real below' ++ [lowest])) as (m' & Hm' & _).
  { by destruct (map real below'). }
  { by rewrite <- Hperm'. }
  exists m'. split; [done |].
  eapply greatest_same_rank; [exact Hperm' | |].
  - by apply py_max_greatest.
  - apply py_max_greatest; [by rewrite <- Hperm' | done].
Qed.

Lemma succ_Permutation (v : SkipNodeReference) (W W' : list SkipNodeReference)
    (m : Ref) :
  Forall has_rs W -> W ≡ₚ W' -> succ v W = Ok m ->
  exists m', succ v W' = Ok m' /\ same_rank m m'.
Proof.
  intros HW Hp H. unfold succ in *. inv_bind. rename a into above.
  destruct (filterM_Permutation _ _ _ _ Hp Ha) as (above' & Ha' & Hperm).
  rewrite Ha'. simpl.
  assert (Forall wf_ref (map real above ++ [highest])) as Hwf.
  { apply Forall_wf_real; [by eapply filterM_has_rs | done]. }
  assert (map real above ++ [highest] ≡ₚ map real above' ++ [highest]) as Hperm'.
  { by rewrite Hperm. }
  destruct (py_min_total (map real above' ++ [highest])) as (m' & Hm' & _).
  { by destruct (map real above'). }
  { by rewrite <- Hperm'. }
  exists m'. split; [done |].
  eapply least_same_rank; [exact Hperm' | |].
  - by apply py_min_least.
  - apply py_min_least; [by rewrite <- Hperm' | done].
Qed.

Lemma _levelNodes_Permutation (i : nat) (v : SkipNodeReference) (x : bool)
    (N N' W : list SkipNodeReference) :
  N ≡ₚ N' -> _levelNodes i v x N = Ok W ->
  exists W', _levelNodes i v x N' = Ok W' /\ W ≡ₚ W'.
Proof.
  intros Hp H. unfold _levelNodes in *. inv_bind. rewrite Ha. simpl.
  by eapply filterM_Permutation.
Qed.

Lemma _levelNodes_has_rs (i : nat) (v : SkipNodeReference) (x : bool)
    (N W : list SkipNodeReference) :
  Forall has_rs N -> _levelNodes i v x N = Ok W -> Forall has_rs W.
Proof.
  intros HN H. unfold _levelNodes in H. inv_bind. by eapply filterM_has_rs.
Qed.

Lemma levelPred_Permutation (i : nat) (v : SkipNodeReference) (x : bool)
    (N N' : list SkipNodeReference) (m : Ref) :
  Forall has_rs N -> N ≡ₚ N' -> levelPred i v x N = Ok m ->
  exists m', levelPred i v x N' = Ok m' /\ same_rank m m'.
Proof.
  intros HN Hp H. unfold levelPred in *. inv_bind. rename a into W.
  destruct (_levelNodes_Permutation _ _ _ _ _ _ Hp Ha) as (W' & -> & HW).
  simpl. eapply pred_Permutation; [| exact HW | done].
  by eapply _levelNodes_has_rs.
Qed.

Lemma levelSucc_Permutation (i : nat) (v : SkipNodeReference) (x : bool)
    (N N' : list SkipNodeReference) (m : Ref) :
  Forall has_rs N -> N ≡ₚ N' -> levelSucc i v x N = Ok m ->
  exists m', levelSucc i v x N' = Ok m' /\ same_rank m m'.
Proof.
  intros HN Hp H. unfold levelSucc in *. inv_bind. rename a into W.
  destruct (_levelNodes_Permutation _ _ _ _ _ _ Hp Ha) as (W' & -> & HW).
  simpl. eapply succ_Permutation; [| exact HW | done].
  by eapply _levelNodes_has_rs.
Qed.

Lemma low_Permutation (i : nat) (v : SkipNodeReference)
    (N N' : list SkipNodeReference) (m : Ref) :
  Forall has_rs N -> N ≡ₚ N' -> low i v N = Ok m ->
  exists m', low i v N' = Ok m' /\ same_rank m m'.
Proof.
  intros HN Hp H. unfold low in *. inv_bind. rename a into p0, a0 into p1.
  destruct (levelPred_Permutation _ _ _ _ _ _ HN Hp Ha) as (p0' & -> & H0).
  destruct (levelPred_Permutation _ _ _ _ _ _ HN Hp Ha0) as (p1' & -> & H1).
  simpl in *. inv_bind. rename a into c.
  rewrite <- (same_rank_lt_l _ _ _ H1), <- (same_rank_lt_r _ _ _ H0), Ha1.
  simpl. eexists. split; [done |]. subst m. by destruct c.
Qed.

Lemma high_Permutation (i : nat) (v : SkipNodeReference)
    (N N' : list SkipNodeReference) (m : Ref) :
  Forall has_rs N -> N ≡ₚ N' -> high i v N = Ok m ->
  exists m', high i v N' = Ok m' /\ same_rank m m'.
Proof.
  intros HN Hp H. unfold high in *. inv_bind. rename a into s0, a0 into s1.
  destruct (levelSucc_Permutation _ _ _ _ _ _ HN Hp Ha) as (s0' & -> & H0).
  destruct (levelSucc_Permutation _ _ _ _ _ _ HN Hp Ha0) as (s1' & -> & H1).
  simpl in *. unfold ref_gt in *. inv_bind. rename a into c.
  rewrite <- (same_rank_lt_l _ _ _ H0), <- (same_rank_lt_r _ _ _ H1), Ha1.
  simpl. eexists. split; [done |]. subst m. by destruct c.
Qed.

(** The range computed from a set does not depend on the order in which
    the set is iterated. *)
Lemma skipRange_Permutation (i : nat) (v : SkipNodeReference)
    (N N' R : list SkipNodeReference) :
  Forall has_rs N -> N ≡ₚ N' -> skipRange i v N = Ok R ->
  exists R', skipRange i v N' = Ok R' /\ R ≡ₚ R'.
Proof.
  intros HN Hp H. unfold skipRange in *. inv_bind.
  rename a into pv, a0 into l, a1 into h.
  destruct (low_Permutation _ _ _ _ _ HN Hp Ha0) as (l' & -> & Hl).
  destruct (high_Permutation _ _ _ _ _ HN Hp Ha1) as (h' & -> & Hh).
  rewrite Ha. simpl.
  destruct (filterM_Permutation _ _ _ _ Hp H) as (R' & HR' & HR).
  exists R'. split; [| done]. rewrite <- HR'.
  apply filterM_ext. intros w _. unfold ref_le.
  by rewrite (same_rank_lt_r _ _ _ Hl), (same_rank_lt_l _ _ _ Hh).
Qed.

(** ** updateRanges *)

Lemma updateRanges_loop_spec (levels : list nat)
    (acc : list SkipNodeReference) (s : SkipNode)
    (r : result (list SkipNodeReference)) (s' : SkipNode) :
  updateRanges_loop levels acc s = (r, s') ->
  reference s' = reference s /\ node_rs s' = node_rs s /\ N s' = N s /\
  _nodesInRanges s' = _nodesInRanges s /\
  (forall i, i ∉ levels -> _ranges s' !! i = _ranges s !! i) /\
  (forall acc', r = Ok acc' ->
     acc' = acc /\
     forall i, i ∈ levels ->
       exists R, _ranges s' !! i = Some R /\
                 skipRange i (reference s) (N s) = Ok R).
Proof.
  revert s. induction levels as [|i levels IH]; intros s H; simpl in H.
  - injection H as <- <-. repeat split; try done.
    + congruence.
    + intros i Hi. inversion Hi.
  - destruct (skipRange i (reference s) (N s)) as [R|e] eqn:HR.
    + apply IH in H as (Href & Hrs & HN & Hnir & Hout & Hin).
      simpl in Href, Hrs, HN, Hnir, Hout, Hin.
      repeat split; try done.
      * intros j Hj. apply not_elem_of_cons in Hj as [Hne Hj].
        rewrite (Hout j Hj). by apply lookup_insert_ne.
      * by apply Hin.
      * intros j Hj. destruct (Hin acc' H) as [_ Hlev].
        destruct (decide (j ∈ levels)) as [Hjl | Hjl]; [by apply Hlev |].
        apply elem_of_cons in Hj as [-> | Hj]; [| done].
        exists R. split; [| done].
        rewrite (Hout i Hjl). apply lookup_insert_eq.
    + injection H as <- <-. repeat split; try done.
Qed.

Lemma elem_of_levels (i : nat) :
  i ∈ range (RS_BIT_LENGTH - 1) <-> i < RS_BIT_LENGTH - 1.
Proof. unfold range. rewrite elem_of_seq. lia. Qed.

Lemma updateRanges_spec (s : SkipNode) (r : result unit) (s' : SkipNode) :
  updateRanges s = (r, s') ->
  reference s' = reference s /\ node_rs s' = node_rs s /\ N s' = N s /\
  (forall i, RS_BIT_LENGTH - 1 <= i -> _ranges s' !! i = _ranges s !! i) /\
  match r with
  | Ok _ =>
      _nodesInRanges s' = [] /\
      forall i, i < RS_BIT_LENGTH - 1 ->
        exists R, _ranges s' !! i = Some R /\
                  skipRange i (reference s) (N s) = Ok R
  | Raise _ => _nodesInRanges s' = _nodesInRanges s
  end.
Proof.
  unfold updateRanges. intros H.
  destruct (updateRanges_loop (range (RS_BIT_LENGTH - 1)) [] s)
    as [[acc|e] s1] eqn:Hloop;
    injection H as <- <-;
    apply updateRanges_loop_spec in Hloop
      as (Href & Hrs & HN & Hnir & Hout & Hin); cbn [_nodesInRanges set_nodesInRanges
        reference node_rs N _ranges].
  - destruct (Hin acc eq_refl) as [-> Hlev].
    repeat split; try done.
    + intros i Hi. apply Hout. rewrite elem_of_levels. lia.
    + intros i Hi. apply Hlev. by rewrite elem_of_levels.
  - repeat split; try done.
    intros i Hi. apply Hout. rewrite elem_of_levels. lia.
Qed.

Lemma updateRanges_loop_total (levels : list nat)
    (acc : list SkipNodeReference) (s : SkipNode) :
  has_rs (reference s) -> Forall has_rs (N s) ->
  exists s', updateRanges_loop levels acc s = (Ok acc, s').
Proof.
  revert s. induction levels as [|i levels IH]; intros s Hv HN; simpl.
  - eauto.
  - destruct (skipRange_total i _ _ Hv HN) as (R & -> & _).
    by apply IH.
Qed.

Lemma updateRanges_total (s : SkipNode) :
  has_rs (reference s) -> Forall has_rs (N s) ->
  exists s', updateRanges s = (Ok tt, s').
Proof.
  intros Hv HN. unfold updateRanges.
  destruct (updateRanges_loop_total (range (RS_BIT_LENGTH - 1)) [] s Hv HN)
    as [s' ->]. eauto.
Qed.

(** ** linearise *)

Lemma set_add_fresh (u : SkipNodeReference) (s : list SkipNodeReference) :
  u ∉ s -> set_add u s = s ++ [u].
Proof. intros H. unfold set_add. by rewrite decide_False. Qed.

Lemma linearise_known (u : SkipNodeReference) (s : SkipNode) :
  u = reference s \/ u ∈ N s -> linearise u s = (Ok tt, s, []).
Proof.
  intros H. unfold linearise.
  destruct (bool_decide (u ≠ reference s) && bool_decide (u ∉ N s)) eqn:Hg;
    [| done].
  apply andb_true_iff in Hg as [H1%bool_decide_eq_true H2%bool_decide_eq_true].
  by destruct H.
Qed.

(** A call with a new reference adds it, recomputes the ranges and
    stops there: [_nodesInRanges] has just been emptied, so the branch
    that prunes [N] and delegates is not entered. *)
Lemma linearise_fresh (u : SkipNodeReference) (s : SkipNode) :
  u <> reference s -> u ∉ N s ->
  exists r s',
    linearise u s = (r, s', []) /\
    updateRanges (set_N (N s ++ [u]) s) = (r, s') /\
    reference s' = reference s /\ node_rs s' = node_rs s /\
    N s' = N s ++ [u].
Proof.
  intros H1 H2. unfold linearise.
  rewrite !bool_decide_eq_true_2 by done. simpl.
  rewrite set_add_fresh by done.
  destruct (updateRanges (set_N (N s ++ [u]) s)) as [[[]|e] s'] eqn:Hup.
  - pose proof (updateRanges_spec _ _ _ Hup) as (Href & Hrs & HN & _ & Hnir & _).
    rewrite Hnir. simpl. exists (Ok tt), s'. by repeat split.
  - pose proof (updateRanges_spec _ _ _ Hup) as (Href & Hrs & HN & _).
    exists (Raise e), s'. by repeat split.
Qed.

Lemma linearise_cases (u : SkipNodeReference) (s : SkipNode) :
  (u = reference s \/ u ∈ N s) \/ (u <> reference s /\ u ∉ N s).
Proof.
  destruct (decide (u = reference s)); [by left; left |].
  destruct (decide (u ∈ N s)); [by left; right | by right].
Qed.

Lemma linearise_no_calls (u : SkipNodeReference) (s : SkipNode) :
  (linearise u s).2 = [].
Proof.
  destruct (linearise_cases u s) as [H | [H1 H2]].
  - by rewrite linearise_known.
  - destruct (linearise_fresh u s H1 H2) as (r & s' & -> & _). done.
Qed.

Lemma linearise_N (u : SkipNodeReference) (s : SkipNode) :
  N (linearise u s).1.2 =
    if bool_decide (u <> reference s /\ u ∉ N s) then N s ++ [u] else N s.
Proof.
  destruct (linearise_cases u s) as [H | [H1 H2]].
  - rewrite linearise_known by done. simpl.
    rewrite bool_decide_eq_false_2; [done |]. intros [? ?]. by destruct H.
  - destruct (linearise_fresh u s H1 H2) as (r & s' & -> & _ & _ & _ & HN).
    simpl. by rewrite HN, bool_decide_eq_true_2.
Qed.

Lemma linearise_reference (u : SkipNodeReference) (s : SkipNode) :
  reference (linearise u s).1.2 = reference s.
Proof.
  destruct (linearise_cases u s) as [H | [H1 H2]].
  - by rewrite linearise_known.
  - by destruct (linearise_fresh u s H1 H2) as (r & s' & -> & _ & Href & _).
Qed.

Lemma linearise_nodesInRanges (u : SkipNodeReference) (s : SkipNode) :
  _nodesInRanges s = [] -> _nodesInRanges (linearise u s).1.2 = [].
Proof.
  intros Hs. destruct (linearise_cases u s) as [H | [H1 H2]].
  - by rewrite linearise_known.
  - destruct (linearise_fresh u s H1 H2) as (r & s' & -> & Hup & _). simpl.
    apply updateRanges_spec in Hup as (_ & _ & _ & _ & Hr).
    destruct r; [by destruct Hr | by rewrite Hr].
Qed.

(** ** Executions of a node *)

Lemma run_app (ops1 ops2 : list Op) (s : SkipNode) :
  run (ops1 ++ ops2) s = run ops2 (run ops1 s).
Proof. apply foldl_app. Qed.

Lemma step_N_subseteq (s : SkipNode) (o : Op) : N s ⊆ N (step s o).
Proof.
  destruct o as [u|]; simpl; [| done].
  rewrite linearise_N. case_bool_decide; [| done].
  intros x Hx. apply elem_of_app. by left.
Qed.

Lemma run_N_subseteq (ops : list Op) (s : SkipNode) : N s ⊆ N (run ops s).
Proof.
  revert s. induction ops as [|o ops IH]; intros s; simpl; [done |].
  etrans; [apply (step_N_subseteq s o) | apply IH].
Qed.

Lemma run_nodesInRanges (ops : list Op) (s : SkipNode) :
  _nodesInRanges s = [] -> _nodesInRanges (run ops s) = [].
Proof.
  revert s. induction ops as [|o ops IH]; intros s Hs; simpl; [done |].
  apply IH. destruct o; simpl; [by apply linearise_nodesInRanges | done].
Qed.

Lemma run_reference (ops : list Op) (s : SkipNode) :
  reference (run ops s) = reference s.
Proof.
  revert s. induction ops as [|o ops IH]; intros s; simpl; [done |].
  rewrite IH. destruct o; simpl; [apply linearise_reference | done].
Qed.

Lemma skipRange_nil (i : nat) (v : SkipNodeReference) :
  has_rs v -> skipRange i v [] = Ok [].
Proof.
  intros Hv. destruct (skipRange_total i v [] Hv) as (R & HR & _); [done |].
  rewrite HR. f_equal. apply skipRange_subseteq in HR.
  destruct R as [|x R]; [done |].
  assert (x ∈ []) as Hx by (apply HR; left). inversion Hx.
Qed.

Lemma SkipNode_init_ranges (h : string) (p : Z) (b : BitString) (i : nat) :
  i < RS_BIT_LENGTH - 1 -> _ranges (SkipNode_init h p b) !! i = Some [].
Proof.
  intros Hi. unfold RS_BIT_LENGTH, RS_BYTE_LENGTH in Hi.
  do 15 (destruct i as [|i]; [by vm_compute |]). lia.
Qed.

Lemma node_inv_init (h : string) (p : Z) (b : BitString) :
  node_inv (SkipNode_init h p b).
Proof.
  unfold node_inv. split; [done |]. split; [by apply Forall_nil |].
  split; [apply NoDup_nil_2 |].
  intros i Hi. exists []. split; [by apply SkipNode_init_ranges |].
  by apply skipRange_nil.
Qed.

Lemma node_inv_step (s : SkipNode) (o : Op) :
  op_has_rs o -> node_inv s -> node_inv (step s o).
Proof.
  intros Ho (Href & HN & Hnd & Hr). destruct o as [u|]; simpl; [| done].
  destruct (linearise_cases u s) as [H | [H1 H2]].
  - by rewrite linearise_known.
  - destruct (linearise_fresh u s H1 H2) as (r & s' & -> & Hup & Hr' & _ & HN').
    simpl. simpl in Ho.
    assert (Forall has_rs (N s ++ [u])) as Hall.
    { apply Forall_app. split; [done | by apply Forall_singleton]. }
    destruct (updateRanges_total (set_N (N s ++ [u]) s)) as [s'' Hup']; try done.
    rewrite Hup in Hup'. injection Hup' as -> ->.
    apply updateRanges_spec in Hup as (_ & _ & _ & _ & _ & Hlev).
    unfold node_inv. rewrite Hr', HN'. repeat split; try done.
    apply NoDup_app. repeat split; [done | | apply NoDup_singleton].
    intros x Hx ->%list_elem_of_singleton. done.
Qed.

Lemma node_inv_run (ops : list Op) (s : SkipNode) :
  Forall op_has_rs ops -> node_inv s -> node_inv (run ops s).
Proof.
  revert s. induction ops as [|o ops IH]; intros s Hops Hs; simpl; [done |].
  apply Forall_cons in Hops as [Ho Hops].
  apply IH; [done | by apply node_inv_step].
Qed.

(** * Main results *)

Lemma getattr_rs_has_rs (v : SkipNodeReference) (b : BitString) :
  _rs v = Some b -> getattr_rs v = Ok (bit_string b).
Proof. intros H. unfold getattr_rs, rs. by rewrite H. Qed.



(** C8. [high(i, v, N)] is the maximum of the two [levelSucc] values and
    [low(i, v, N)] the minimum of the two [levelPred] values. *)
Theorem high_low_extrema (i : nat) (v : SkipNodeReference)
    (N : list SkipNodeReference) :
  has_rs v -> Forall has_rs N ->
  exists s0 s1 h p0 p1 l,
    levelSucc i v false N = Ok s0 /\ levelSucc i v true N = Ok s1 /\
    high i v N = Ok h /\ is_maximum h s0 s1 /\
    levelPred i v false N = Ok p0 /\ levelPred i v true N = Ok p1 /\
    low i v N = Ok l /\ is_minimum l p0 p1.
Proof.
  intros Hv HN.
  destruct (levelSucc_total i v false N Hv HN) as (s0 & Hs0 & W0).
  destruct (levelSucc_total i v true N Hv HN) as (s1 & Hs1 & W1).
  destruct (levelPred_total i v false N Hv HN) as (p0 & Hp0 & V0).
  destruct (levelPred_total i v true N Hv HN) as (p1 & Hp1 & V1).
  destruct (ref_lt_total s0 s1 W0 W1) as [c Hc].
  destruct (ref_lt_total p1 p0 V1 V0) as [d Hd].
  exists s0, s1, (if c then s1 else s0), p0, p1, (if d then p1 else p0).
  unfold high, low. rewrite Hs0, Hs1, Hp0, Hp1. simpl.
  unfold ref_gt. rewrite Hc, Hd. simpl.
  repeat split; try done.
  - destruct c; auto.
  - destruct c; [by apply ref_lt_le | by apply ref_le_refl].
  - destruct c; [by apply ref_le_refl | by apply ref_not_lt_le].
  - destruct d; auto.
  - destruct d; [by apply ref_lt_le | by apply ref_le_refl].
  - destruct d; [by apply ref_le_refl | by apply ref_not_lt_le].
Qed.

Lemma high_low_extrema_witness :
  exists s0 s1 h p0 p1 l,
    levelSucc 1 x3 false [x1; x2; x4] = Ok s0 /\
    levelSucc 1 x3 true [x1; x2; x4] = Ok s1 /\
    high 1 x3 [x1; x2; x4] = Ok h /\ is_maximum h s0 s1 /\
    levelPred 1 x3 false [x1; x2; x4] = Ok p0 /\
    levelPred 1 x3 true [x1; x2; x4] = Ok p1 /\
    low 1 x3 [x1; x2; x4] = Ok l /\ is_minimum l p0 p1.
Proof.
  apply (high_low_extrema 1 x3 [x1; x2; x4]).
  - by vm_compute.
  - repeat (constructor; [by vm_compute |]). constructor.
Defined.

(** The docstring of [high] reads max{levelPred(...)}; the value computed
    is not that one. *)
Lemma high_differs_from_docstring :
  high 0 (reference example_node) (N example_node) = Ok highest /\
  (let! p0 := levelPred 0 (reference example_node) false (N example_node) in
   let! p1 := levelPred 0 (reference example_node) true (N example_node) in
   py_max [p0; p1]) = Ok (real x3).
Proof. split; by vm_compute. Qed.

(** C7. In every state a node reaches, each [_ranges[i]] is a subset of
    [N], and every [w] in it has the node's prefix of length [i] and lies
    between [low(i, v, N)] and [high(i, v, N)]. *)
Theorem ranges_sound (h : string) (p : Z) (b : BitString)
    (ops : list Op) (i : nat) :
  Forall op_has_rs ops -> i < RS_BIT_LENGTH - 1 ->
  let s := run ops (SkipNode_init h p b) in
  exists R,
    _ranges s !! i = Some R /\ R ⊆ N s /\
    forall w, w ∈ R ->
      exists pw l hi,
        prefix i w = Ok pw /\ prefix i (reference s) = Ok pw /\
        low i (reference s) (N s) = Ok l /\
        high i (reference s) (N s) = Ok hi /\
        ref_le l (real w) = Ok true /\ ref_le (real w) hi = Ok true.
Proof.
  intros Hops Hi s.
  destruct (node_inv_run ops _ Hops (node_inv_init h p b))
    as (_ & _ & _ & Hlev).
  destruct (Hlev i Hi) as (R & HR & Hskip). fold s in HR, Hskip.
  exists R. split; [done |]. split; [by eapply skipRange_subseteq |].
  intros w Hw. by apply (skipRange_elem_of _ _ _ _ Hskip).
Qed.

Lemma example_ops_has_rs : Forall op_has_rs example_ops.
Proof. repeat (constructor; [by vm_compute |]). constructor. Defined.

Lemma ranges_sound_witness :
  exists R,
    _ranges example_node !! 0 = Some R /\ R ⊆ N example_node /\
    forall w, w ∈ R ->
      exists pw l hi,
        prefix 0 w = Ok pw /\ prefix 0 (reference example_node) = Ok pw /\
        low 0 (reference example_node) (N example_node) = Ok l /\
        high 0 (reference example_node) (N example_node) = Ok hi /\
        ref_le l (real w) = Ok true /\ ref_le (real w) hi = Ok true.
Proof.
  apply (ranges_sound "localhost" 33000 (bits "1000000000000000")
           example_ops 0 example_ops_has_rs).
  unfold RS_BIT_LENGTH, RS_BYTE_LENGTH. simpl. lia.
Defined.

(** Of the field [_nodesInRanges] as the code leaves it: after a call of
    [linearise(u)] the field is empty and [N] is what it was before the
    pruning step, the old [N] with [u] added when [u] was new. *)
Theorem linearise_neighbourhood_sound (h : string) (p : Z) (b : BitString)
    (ops : list Op) (u : SkipNodeReference) :
  let s := run ops (SkipNode_init h p b) in
  let s' := (linearise u s).1.2 in
  (N s' ⊆ _nodesInRanges s' /\
   (_nodesInRanges s' <> [] -> forall x, x ∈ N s' <-> x ∈ _nodesInRanges s'))
  \/
  (_nodesInRanges s' = [] /\
   N s' = if bool_decide (u <> reference s /\ u ∉ N s)
          then N s ++ [u] else N s).
Proof.
  intros s s'. right. split.
  - apply linearise_nodesInRanges. by apply run_nodesInRanges.
  - apply linearise_N.
Qed.

(** C3 at [outlier_node] and [x5].  The call returns; afterwards the
    nodes in the ranges are [x3] and [x5], so they are not empty, and
    [x1] is in [N] and in no range: [N] is not a subset of the nodes in
    the ranges.  The field [_nodesInRanges] is empty, which is why the
    pruning step was not taken. *)
Theorem linearise_leaves_neighbour_outside_ranges :
  let s' := (linearise x5 outlier_node).1.2 in
  (linearise x5 outlier_node).1.1 = Ok tt /\
  N s' = [x1; x3; x5] /\
  is_union_of_ranges s' [x3; x5] /\
  (forall U, is_union_of_ranges s' U -> U <> [] /\ ~ N s' ⊆ U) /\
  _nodesInRanges s' = [].
Proof.
  intros s'.
  assert (is_union_of_ranges s' [x3; x5]) as Hunion.
  { intros w. split.
    - intros Hw. exists 0, [x3; x5]. split; [| split; [by vm_compute | done]].
      unfold RS_BIT_LENGTH, RS_BYTE_LENGTH. simpl. lia.
    - intros (i & R & Hi & HR & Hw).
      unfold RS_BIT_LENGTH, RS_BYTE_LENGTH in Hi. simpl in Hi.
      destruct i as [|i].
      { assert (_ranges s' !! 0 = Some [x3; x5]) as H0 by by vm_compute.
        congruence. }
      destruct i as [|i].
      { assert (_ranges s' !! 1 = Some [x5]) as H1 by by vm_compute.
        assert (R = [x5]) as -> by congruence.
        apply list_elem_of_singleton in Hw as ->. right. left. }
      do 13 (destruct i as [|i];
             [vm_compute in HR; injection HR as <-; inversion Hw |]).
      lia. }
  split; [by vm_compute |]. split; [by vm_compute |]. split; [done |].
  split; [| by vm_compute].
  intros U HU. split.
  - intros ->. assert (x3 ∈ []) as Hx; [| inversion Hx].
    apply HU. apply Hunion. left.
  - intros Hsub. assert (x1 ∈ [x3; x5]) as Hx.
    { apply Hunion. apply HU. apply Hsub. by vm_compute; left. }
    apply elem_of_cons in Hx as [Hx | Hx]; [by vm_compute in Hx |].
    apply list_elem_of_singleton in Hx. by vm_compute in Hx.
Qed.

Lemma linearise_times_known (k : nat) (u : SkipNodeReference) (s : SkipNode) :
  u = reference s \/ u ∈ N s -> linearise_times k u s = s.
Proof.
  intros H. induction k as [|k IH]; simpl; [done |].
  by rewrite linearise_known.
Qed.

(** C6. Calling [linearise(u)] [k >= 1] times leaves the same [N] as
    calling it once; when [u] is the node's own reference or already in
    [N], the call changes nothing. *)
Theorem linearise_idempotent (s : SkipNode) (u : SkipNodeReference) :
  (forall k, N (linearise_times (S k) u s) = N (linearise_times 1 u s)) /\
  (u = reference s \/ u ∈ N s -> linearise u s = (Ok tt, s, [])).
Proof.
  split; [| apply linearise_known].
  intros k. simpl. rewrite linearise_times_known; [done |].
  rewrite linearise_reference, linearise_N.
  destruct (linearise_cases u s) as [H | [H1 H2]].
  - rewrite bool_decide_eq_false_2; [done |]. intros [? ?]. by destruct H.
  - rewrite bool_decide_eq_true_2 by done. right.
    apply elem_of_app. right. by apply list_elem_of_singleton.
Qed.

Lemma linearise_idempotent_witness :
  (forall k, N (linearise_times (S k) x1 example_node)
             = N (linearise_times 1 x1 example_node)) /\
  linearise x1 example_node = (Ok tt, example_node, []).
Proof.
  destruct (linearise_idempotent example_node x1) as [Hk Hnoop].
  split; [exact Hk |]. apply Hnoop. right. by vm_compute; left.
Defined.

(** C10. No call removes a reference from [N]: over every sequence of
    [linearise] and [timeout] calls [N] only grows, a call of
    [linearise(u)] leaves [N] as it is or adds [u], and it never
    delegates, the pruning branch being dead. *)
Theorem N_grows_monotonically (s : SkipNode) (ops : list Op) :
  N s ⊆ N (run ops s) /\
  (forall o, N (run ops s) ⊆ N (step (run ops s) o)) /\
  (forall u, (linearise u s).2 = [] /\
             (N (linearise u s).1.2 = N s \/
              N (linearise u s).1.2 = N s ++ [u])).
Proof.
  split; [apply run_N_subseteq |]. split; [intros o; apply step_N_subseteq |].
  intros u. split; [apply linearise_no_calls |].
  rewrite linearise_N. case_bool_decide; auto.
Qed.

(** ** max with a key *)

Section MaxKey.
Context {A : Type} (key : A -> result nat).

Lemma max_key_from_spec (cur : A) (kcur : nat) (l : list A) (x : A) :
  max_key_from key cur kcur l = Ok x ->
  (x = cur /\ forall y, y ∈ l -> exists ky, key y = Ok ky /\ ky <= kcur) \/
  (exists pre post kx,
     l = pre ++ x :: post /\ key x = Ok kx /\ kcur < kx /\
     (forall y, y ∈ pre -> exists ky, key y = Ok ky /\ ky < kx) /\
     (forall y, y ∈ post -> exists ky, key y = Ok ky /\ ky <= kx)).
Proof.
  revert cur kcur. induction l as [|y l IH]; intros cur kcur H; simpl in H.
  - inv_bind. left. split; [done |]. intros y Hy. inversion Hy.
  - inv_bind. rename a into ky. case_bool_decide as Hlt.
    + apply IH in H as [[-> Hall] | (pre & post & kx & -> & Hkx & Hgt & Hpre & Hpost)].
      * right. exists [], l, ky. repeat split; try done.
        intros z Hz. inversion Hz.
      * right. exists (y :: pre), post, kx. repeat split; try done; [lia |].
        intros z [-> | Hz]%elem_of_cons; [| by apply Hpre].
        exists ky. split; [done | lia].
    + apply IH in H as [[-> Hall] | (pre & post & kx & -> & Hkx & Hgt & Hpre & Hpost)].
      * left. split; [done |].
        intros z [-> | Hz]%elem_of_cons; [| by apply Hall].
        exists ky. split; [done | lia].
      * right. exists (y :: pre), post, kx. repeat split; try done.
        intros z [-> | Hz]%elem_of_cons; [| by apply Hpre].
        exists ky. split; [done | lia].
Qed.

Lemma py_max_key_spec (l : list A) (x : A) :
  py_max_key key l = Ok x -> first_maximiser key x l.
Proof.
  destruct l as [|y l]; simpl; [done |]. intros H. inv_bind.
  rename a into ky.
  apply max_key_from_spec in H
    as [[-> Hall] | (pre & post & kx & -> & Hkx & Hgt & Hpre & Hpost)].
  - exists [], l, ky. repeat split; try done. intros z Hz. inversion Hz.
  - exists (y :: pre), post, kx. repeat split; try done.
    intros z [-> | Hz]%elem_of_cons; [| by apply Hpre].
    exists ky. split; [done | lia].
Qed.

Lemma max_key_from_total (cur : A) (kcur : nat) (l : list A) :
  (forall y, y ∈ l -> exists ky, key y = Ok ky) ->
  exists x, max_key_from key cur kcur l = Ok x.
Proof.
  revert cur kcur. induction l as [|y l IH]; intros cur kcur H; simpl.
  - eauto.
  - destruct (H y) as [ky ->]; [left |]. simpl.
    case_bool_decide; apply IH; intros z Hz; apply H; by right.
Qed.

Lemma py_max_key_total (l : list A) :
  l <> [] -> (forall y, y ∈ l -> exists ky, key y = Ok ky) ->
  exists x, py_max_key key l = Ok x.
Proof.
  destruct l as [|y l]; [done |]. intros _ H. simpl.
  destruct (H y) as [ky ->]; [left |]. simpl.
  apply max_key_from_total. intros z Hz. apply H. by right.
Qed.

End MaxKey.

Lemma commonPrefixKey_total (w x : SkipNodeReference) :
  has_rs w -> has_rs x -> exists k, commonPrefixKey w x = Ok k.
Proof.
  intros [wr Hw]%has_rs_rs [xr Hx]%has_rs_rs.
  apply rs_Ok in Hw, Hx. unfold commonPrefixKey.
  rewrite (getattr_rs_has_rs _ _ Hx), (getattr_rs_has_rs _ _ Hw). simpl. eauto.
Qed.

(** C5, as the code has it. For a non-empty [W], [longestCommonPrefixNode(w, W)]
    returns an element of [W] whose common prefix with [w] is longest;
    among several such elements it returns the one that comes first when
    [W] is iterated. *)
Theorem longestCommonPrefixNode_first_maximiser (w : SkipNodeReference)
    (W : list SkipNodeReference) :
  W <> [] -> has_rs w -> Forall has_rs W ->
  exists x,
    longestCommonPrefixNode w W = Ok x /\
    first_maximiser (commonPrefixKey w) x W.
Proof.
  intros HW Hw Hall. unfold longestCommonPrefixNode.
  destruct (py_max_key_total (commonPrefixKey w) W HW) as [x Hx].
  { intros y Hy. apply commonPrefixKey_total; [done |].
    rewrite Forall_forall in Hall. by apply Hall. }
  exists x. split; [done |]. by apply py_max_key_spec.
Qed.

Lemma longestCommonPrefixNode_first_maximiser_witness :
  exists x,
    longestCommonPrefixNode x4 [x3; x1] = Ok x /\
    first_maximiser (commonPrefixKey x4) x [x3; x1].
Proof.
  apply (longestCommonPrefixNode_first_maximiser x4 [x3; x1]).
  - discriminate.
  - by vm_compute.
  - repeat (constructor; [by vm_compute |]). constructor.
Defined.

(** C5, as stated, fails: [x1] and [x3] both share no prefix with [x4],
    and the one returned is the one iterated first, whichever way the
    order on [rs] would decide. *)
Lemma longestCommonPrefixNode_tie_not_by_rs :
  ~ tie_broken_by_rs true /\ ~ tie_broken_by_rs false.
Proof.
  split; intros H.
  - specialize (H x4 [x3; x1] x3 x1 0).
    assert (Ok false = Ok true) as Habs; [| discriminate Habs].
    rewrite <- H; [by vm_compute | by vm_compute | | by vm_compute | by vm_compute].
    apply elem_of_cons. right. apply elem_of_cons. by left.
  - specialize (H x4 [x1; x3] x1 x3 0).
    assert (Ok false = Ok true) as Habs; [| discriminate Habs].
    rewrite <- H; [by vm_compute | by vm_compute | | by vm_compute | by vm_compute].
    apply elem_of_cons. right. apply elem_of_cons. by left.
Qed.

(** ** updateRanges and the union *)

Lemma updateRanges_nodesInRanges (s s' : SkipNode) :
  updateRanges s = (Ok tt, s') -> _nodesInRanges s' = [].
Proof.
  intros H. by apply updateRanges_spec in H as (_ & _ & _ & _ & ? & _).
Qed.

(** C1 at this node: [updateRanges] returns, every level's range is
    [skipRange] of that level, the range of level 0 holds [x4], and
    [_nodesInRanges] is left empty, which is not the union of the
    ranges. *)
Theorem updateRanges_drops_union :
  let s' := (updateRanges one_neighbour).2 in
  (updateRanges one_neighbour).1 = Ok tt /\
  (forall i, i < RS_BIT_LENGTH - 1 ->
     exists R, _ranges s' !! i = Some R /\
               skipRange i (reference one_neighbour) (N one_neighbour) = Ok R) /\
  _ranges s' !! 0 = Some [x4] /\
  _nodesInRanges s' = [] /\
  ~ is_union_of_ranges s' (_nodesInRanges s').
Proof.
  intros s'.
  assert (updateRanges one_neighbour = (Ok tt, s')) as Hup by by vm_compute.
  assert (_ranges s' !! 0 = Some [x4]) as H0 by by vm_compute.
  pose proof (updateRanges_spec _ _ _ Hup) as (_ & _ & _ & _ & Hnir & Hlev).
  split; [by rewrite Hup |]. split; [exact Hlev |].
  split; [exact H0 |]. split; [exact Hnir |].
  intros HU. rewrite Hnir in HU.
  assert (x4 ∈ []) as Hx; [| inversion Hx].
  apply HU. exists 0, [x4]. split; [| split; [exact H0 | by left]].
  unfold RS_BIT_LENGTH, RS_BYTE_LENGTH. simpl. lia.
Qed.

(** ** timeout and the level used for bridging *)

Lemma linearising_pairs_level (r : list SkipNodeReference) (ks : list nat)
    (i : nat) :
  (linearising_pairs r ks i).2 = default i (last ks).
Proof.
  revert i. induction ks as [|k ks IH]; intros i; [done |].
  cbn [linearising_pairs]. specialize (IH k).
  destruct (linearising_pairs r ks k) as [calls j] eqn:Hrec.
  cbn [snd] in *. rewrite last_cons, IH. by destruct (last ks).
Qed.

(** After part a has run over a side [r], the variable [i] no longer
    holds the level as soon as [r] has two elements. *)
Lemma linearising_level (self_ref : SkipNodeReference)
    (r : list SkipNodeReference) (i : nat) :
  (linearising self_ref r i).2 =
    if bool_decide (2 <= length r) then length r - 2 else i.
Proof.
  unfold linearising.
  destruct (linearising_pairs r (range (length r - 1)) i) as [calls j] eqn:Hp.
  simpl. pose proof (linearising_pairs_level r (range (length r - 1)) i) as Hl.
  rewrite Hp in Hl. simpl in Hl. rewrite Hl. unfold range.
  case_bool_decide as Hlen.
  - replace (length r - 1) with (S (length r - 2)) by lia.
    rewrite seq_S, last_snoc. simpl. done.
  - replace (length r - 1) with 0 by lia. done.
Qed.

Lemma bind_out_lift_Ok {A B : Type} (a : A) (k : A -> Out B) :
  bind_out (lift_out (Ok a)) k = k a.
Proof. unfold bind_out, lift_out. by destruct (k a). Qed.

(** One iteration of the loop of [timeout]: part b works at
    [bridging_level], which is the level [i] only when neither side has
    two elements. *)
Lemma timeout_level_bridging (s : SkipNode) (i : nat)
    (range_i l0 r0 leftRange rightRange : list SkipNodeReference) :
  _ranges s !! i = Some range_i ->
  split_range (reference s) range_i [] [] = Ok (l0, r0) ->
  py_sort l0 = Ok leftRange ->
  py_sort_reverse r0 = Ok rightRange ->
  let j := bridging_level i leftRange rightRange in
  let callsL := (linearising (reference s) leftRange i).1 in
  let callsR :=
    (linearising (reference s) rightRange
       (linearising (reference s) leftRange i).2).1 in
  timeout_level s i =
    bind_out (Ok tt, callsL ++ callsR) (fun _ =>
    bind_out (bridging j leftRange rightRange (N s)) (fun _ =>
    bridging j rightRange leftRange (N s))).
Proof.
  intros Hr Hs Hl Hrr j callsL callsR. unfold timeout_level.
  rewrite Hr, bind_out_lift_Ok, Hs, bind_out_lift_Ok, Hl, bind_out_lift_Ok,
    Hrr, bind_out_lift_Ok.
  pose proof (linearising_level (reference s) leftRange i) as HL.
  pose proof (linearising_level (reference s) rightRange
                (linearising (reference s) leftRange i).2) as HR.
  subst callsL callsR.
  destruct (linearising (reference s) leftRange i) as [cL iL].
  simpl in *.
  destruct (linearising (reference s) rightRange iL) as [cR iR].
  simpl in *.
  assert (iR = j) as ->; [| done].
  subst j iR iL. unfold bridging_level. by repeat case_bool_decide.
Qed.

Lemma bridging_level_short (i : nat) (leftRange rightRange : list SkipNodeReference) :
  length leftRange < 2 -> length rightRange < 2 ->
  bridging_level i leftRange rightRange = i.
Proof.
  intros Hl Hr. unfold bridging_level.
  rewrite !bool_decide_eq_false_2 by lia. done.
Qed.

(** C2 at [example_node]. At level 0 the sides are [x1; x2; x3] and
    [x4]; [x4] is in [skipRange(0, x3, N)] and [x3] is in
    [skipRange(0, x4, N)], yet [timeout] issues neither
    [x3.linearise(x4)] nor [x4.linearise(x3)]: after part a the variable
    [i] is 1, and the ranges tested are those of level 1. *)
Theorem timeout_bridges_at_other_level :
  (timeout example_node).1 = Ok tt /\
  _ranges example_node !! 0 = Some [x1; x2; x3; x4] /\
  split_range (reference example_node) [x1; x2; x3; x4] [] []
    = Ok ([x1; x2; x3], [x4]) /\
  (exists R, skipRange 0 x3 (N example_node) = Ok R /\ x4 ∈ R) /\
  (exists R, skipRange 0 x4 (N example_node) = Ok R /\ x3 ∈ R) /\
  (linearise_call x3 x4 ∉ (timeout example_node).2) /\
  (linearise_call x4 x3 ∉ (timeout example_node).2) /\
  (linearising (reference example_node) [x4]
     (linearising (reference example_node) [x1; x2; x3] 0).2).2 = 1 /\
  (exists R, skipRange 1 x3 (N example_node) = Ok R /\ x4 ∉ R) /\
  (exists R, skipRange 1 x4 (N example_node) = Ok R /\ x3 ∉ R).
Proof.
  split; [by vm_compute |]. split; [by vm_compute |]. split; [by vm_compute |].
  split.
  { exists [x1; x2; x3; x4]. split; [by vm_compute |].
    apply (bool_decide_unpack _). by vm_compute. }
  split.
  { exists [x1; x2; x3; x4]. split; [by vm_compute |].
    apply (bool_decide_unpack _). by vm_compute. }
  split; [apply (bool_decide_unpack _); by vm_compute |].
  split; [apply (bool_decide_unpack _); by vm_compute |].
  split; [by vm_compute |].
  split.
  { exists [x1; x2; x3]. split; [by vm_compute |].
    apply (bool_decide_unpack _). by vm_compute. }
  exists [x4]. split; [by vm_compute |].
  apply (bool_decide_unpack _). by vm_compute.
Qed.

(** ** The factory *)

Section FactoryProperties.
Variable introduce :
  SkipNodeReference -> SkipNode -> result unit * SkipNode * list Call.
Variable thisHost : string.

(** A node that is not the first is introduced to the node created
    before it. *)
Lemma _initNode_later (f : SkipNodeFactory) (p : Z) (b : BitString)
    (prev : SkipNode) :
  last (nodes f) = Some prev ->
  (_initNode thisHost f p b false).2
    = [local_call (SkipNode_init thisHost p b) "linearise" (reference prev)].
Proof.
  intros Hprev. unfold _initNode. rewrite Hprev.
  pose proof (linearise_no_calls (reference prev) (SkipNode_init thisHost p b)) as Hc.
  destruct (linearise (reference prev) (SkipNode_init thisHost p b))
    as [[r s'] calls]. simpl in Hc. by subst calls.
Qed.

(** The first node is introduced to the entry node when the entry
    node's bit string has already arrived. *)
Lemma _initNode_first_entry_known (f : SkipNodeFactory) (p : Z)
    (b : BitString) (entry : SkipNodeReference) :
  entryNodeReference f = Some entry ->
  (_initNode thisHost f p b true).2
    = [local_call (SkipNode_init thisHost p b) "linearise" entry].
Proof.
  intros He. unfold _initNode. rewrite He.
  pose proof (linearise_no_calls entry (SkipNode_init thisHost p b)) as Hc.
  destruct (linearise entry (SkipNode_init thisHost p b))
    as [[r s'] calls]. simpl in Hc. by subst calls.
Qed.

(** While the bit string has not arrived, creating the first node
    calls nothing. *)
Lemma _initNode_first_entry_pending (f : SkipNodeFactory) (p : Z)
    (b : BitString) :
  entryNodeReference f = None ->
  _initNode thisHost f p b true = (Ok (SkipNode_init thisHost p b), []).
Proof. intros He. unfold _initNode. by rewrite He. Qed.

(** When the bit string arrives after the first node exists, the call
    made on that node is [introduce]. *)
Lemma _gotEntryNodeRs_calls (f : SkipNodeFactory) (b : BitString)
    (first : SkipNode) :
  nodes f !! 0 = Some first ->
  let entry :=
    SkipNodeReference_init (_entryNodeHost f) (_entryNodePort f) (Some b) in
  (_gotEntryNodeRs introduce b f).2
    = local_call first "introduce" entry :: (introduce entry first).2.
Proof.
  intros Hfirst entry. unfold _gotEntryNodeRs. simpl. rewrite Hfirst.
  fold entry. by destruct (introduce entry first) as [[r s'] calls].
Qed.

End FactoryProperties.

(** C4 at this factory. Creating the first node calls nothing, since
    the bit string is still missing; when it arrives, the only call made
    on the first node is [introduce(entryRef)], a method [SkipNode] does
    not define, and not [linearise(entryRef)]. *)
Theorem entry_node_not_linearised
    (introduce : SkipNodeReference -> SkipNode ->
                 result unit * SkipNode * list Call) :
  let first := SkipNode_init "localhost" 33000 (bits "1000000000000000") in
  newNode "localhost" (bits "1000000000000000") factory_with_entry
    = (Ok tt, factory_first_node, []) /\
  nodes factory_first_node = [first] /\
  (_gotEntryNodeRs introduce (bits "1100000000000000") factory_first_node).2
    = local_call first "introduce" entry_ref :: (introduce entry_ref first).2 /\
  local_call first "introduce" entry_ref
    <> local_call first "linearise" entry_ref.
Proof.
  intros first. split; [by vm_compute |]. split; [by vm_compute |].
  split; [| discriminate].
  by apply (_gotEntryNodeRs_calls introduce factory_first_node
              (bits "1100000000000000") first).
Qed.

(** * Further properties of the module *)

(** ** commonPrefixLength *)

Lemma commonPrefixLength_take (v w : BitString) :
  take (commonPrefixLength v w) v = take (commonPrefixLength v w) w.
Proof.
  revert w. induction v as [|a v IH]; intros [|b w]; simpl; try done.
  destruct a, b; simpl; try done; by rewrite IH.
Qed.

Lemma commonPrefixLength_le (v w : BitString) :
  commonPrefixLength v w <= length v /\ commonPrefixLength v w <= length w.
Proof.
  revert w. induction v as [|a v IH]; intros [|b w]; simpl; try lia.
  destruct (Bool.eqb a b); simpl; [| lia]. specialize (IH w). lia.
Qed.

Lemma commonPrefixLength_maximal (v w : BitString) (j : nat) :
  j <= length v -> j <= length w -> take j v = take j w ->
  j <= commonPrefixLength v w.
Proof.
  revert w j. induction v as [|a v IH]; intros [|b w] [|j]; simpl; try lia.
  intros Hv Hw [= -> Ht]. rewrite Bool.eqb_reflx.
  specialize (IH w j ltac:(lia) ltac:(lia) Ht). lia.
Qed.

Lemma commonPrefixLength_comm (v w : BitString) :
  commonPrefixLength v w = commonPrefixLength w v.
Proof.
  revert w. induction v as [|a v IH]; intros [|b w]; simpl; try done.
  destruct a, b; simpl; try done; by rewrite IH.
Qed.

(** X2. [commonPrefixLength(v, w)] is the length of the longest common
    prefix: the two bit strings agree on that many leading bits, it
    exceeds neither length, no longer prefix is shared, and the order of
    the arguments does not matter. *)
Theorem commonPrefixLength_longest (v w : BitString) :
  let k := commonPrefixLength v w in
  k <= length v /\ k <= length w /\ take k v = take k w /\
  (forall j, j <= length v -> j <= length w -> take j v = take j w -> j <= k) /\
  commonPrefixLength w v = k.
Proof.
  intros k. destruct (commonPrefixLength_le v w) as [H1 H2].
  split; [done |]. split; [done |]. split; [apply commonPrefixLength_take |].
  split; [intros j; apply commonPrefixLength_maximal |].
  apply commonPrefixLength_comm.
Qed.

Lemma commonPrefixLength_longest_witness :
  2 <= commonPrefixLength (bits "1011") (bits "100").
Proof.
  destruct (commonPrefixLength_longest (bits "1011") (bits "100"))
    as (_ & _ & _ & Hmax & _).
  apply Hmax; [simpl; lia | simpl; lia | reflexivity].
Defined.

(** ** pred and succ *)

Lemma filterM_ref_defined (p : SkipNodeReference -> result bool)
    (W : list SkipNodeReference) :
  (forall w, w ∈ W -> exists b, p w = Ok b) ->
  exists r, filterM p W = Ok r /\
            forall w, w ∈ W -> w ∉ r -> p w = Ok false.
Proof.
  intros Hdef. destruct (filterM_total p W Hdef) as [r Hr].
  exists r. split; [done |]. intros w Hw Hnot.
  destruct (Hdef w Hw) as [[|] Hb]; [| done].
  destruct Hnot. apply (filterM_elem_of p W r Hr). by split.
Qed.

(** X3. On references that carry a bit string [pred(v, W)] returns: it
    is [lowest] when no element of [W] is below [v], and otherwise an
    element of [W] below [v] that no other element of [W] below [v]
    exceeds. *)
Theorem pred_greatest_below (v : SkipNodeReference)
    (W : list SkipNodeReference) :
  has_rs v -> Forall has_rs W ->
  exists m, pred v W = Ok m /\
    match m with
    | lowest => forall w, w ∈ W -> ref_lt (real w) (real v) = Ok false
    | real u =>
        u ∈ W /\ ref_lt (real u) (real v) = Ok true /\
        forall w, w ∈ W -> ref_lt (real w) (real v) = Ok true ->
                  ref_lt (real u) (real w) = Ok false
    | highest => False
    end.
Proof.
  intros Hv HW. unfold pred.
  destruct (filterM_ref_defined (fun w => ref_lt (real w) (real v)) W)
    as (below & Hb & Hrest).
  { intros w Hw. apply ref_lt_total; [| done].
    rewrite Forall_forall in HW. by apply HW. }
  rewrite Hb. simpl.
  assert (Forall wf_ref (map real below ++ [lowest])) as Hwf.
  { apply Forall_wf_real; [by eapply filterM_has_rs | done]. }
  destruct (py_max_total (map real below ++ [lowest])) as (m & Hm & _);
    [by destruct (map real below) | done |].
  exists m. split; [done |].
  destruct (py_max_greatest _ _ Hwf Hm) as [Hin Hmax].
  pose proof (filterM_elem_of _ _ _ Hb) as Hmem.
  apply elem_of_app in Hin as [Hin | Hin%list_elem_of_singleton].
  - apply list_elem_of_fmap in Hin as (u & -> & Hu).
    apply Hmem in Hu as [HuW Hlt]. split; [done |]. split; [done |].
    intros w Hw Hwlt. apply (Hmax (real w)). apply elem_of_app. left.
    apply list_elem_of_fmap. exists w. split; [done |]. by apply Hmem.
  - subst m. intros w Hw. apply Hrest; [done |]. intros Hwb.
    assert (ref_lt lowest (real w) = Ok false) as Habs; [| done].
    apply Hmax. apply elem_of_app. left. apply list_elem_of_fmap. by exists w.
Qed.

Lemma pred_greatest_below_witness :
  exists m, pred x3 [x1; x2; x4] = Ok m /\
    match m with
    | lowest => forall w, w ∈ [x1; x2; x4] -> ref_lt (real w) (real x3) = Ok false
    | real u =>
        u ∈ [x1; x2; x4] /\ ref_lt (real u) (real x3) = Ok true /\
        forall w, w ∈ [x1; x2; x4] -> ref_lt (real w) (real x3) = Ok true ->
                  ref_lt (real u) (real w) = Ok false
    | highest => False
    end.
Proof.
  apply (pred_greatest_below x3 [x1; x2; x4]).
  - by vm_compute.
  - repeat (constructor; [by vm_compute |]). constructor.
Defined.

(** X4. On references that carry a bit string [succ(v, W)] returns: it
    is [highest] when no element of [W] is above [v], and otherwise an
    element of [W] above [v] that is below no other element of [W] above
    [v]. *)
Theorem succ_least_above (v : SkipNodeReference)
    (W : list SkipNodeReference) :
  has_rs v -> Forall has_rs W ->
  exists m, succ v W = Ok m /\
    match m with
    | highest => forall w, w ∈ W -> ref_gt (real w) (real v) = Ok false
    | real u =>
        u ∈ W /\ ref_gt (real u) (real v) = Ok true /\
        forall w, w ∈ W -> ref_gt (real w) (real v) = Ok true ->
                  ref_lt (real w) (real u) = Ok false
    | lowest => False
    end.
Proof.
  intros Hv HW. unfold succ.
  destruct (filterM_ref_defined (fun w => ref_gt (real w) (real v)) W)
    as (above & Ha & Hrest).
  { intros w Hw. apply ref_lt_total; [done |].
    rewrite Forall_forall in HW. by apply HW. }
  rewrite Ha. simpl.
  assert (Forall wf_ref (map real above ++ [highest])) as Hwf.
  { apply Forall_wf_real; [by eapply filterM_has_rs | done]. }
  destruct (py_min_total (map real above ++ [highest])) as (m & Hm & _);
    [by destruct (map real above) | done |].
  exists m. split; [done |].
  destruct (py_min_least _ _ Hwf Hm) as [Hin Hmin].
  pose proof (filterM_elem_of _ _ _ Ha) as Hmem.
  apply elem_of_app in Hin as [Hin | Hin%list_elem_of_singleton].
  - apply list_elem_of_fmap in Hin as (u & -> & Hu).
    apply Hmem in Hu as [HuW Hgt]. split; [done |]. split; [done |].
    intros w Hw Hwgt. apply (Hmin (real w)). apply elem_of_app. left.
    apply list_elem_of_fmap. exists w. split; [done |]. by apply Hmem.
  - subst m. intros w Hw. apply Hrest; [done |]. intros Hwa.
    assert (ref_lt (real w) highest = Ok false) as Habs; [| done].
    apply Hmin. apply elem_of_app. left. apply list_elem_of_fmap. by exists w.
Qed.

Lemma succ_least_above_witness :
  exists m, succ x2 [x1; x3; x4] = Ok m /\
    match m with
    | highest => forall w, w ∈ [x1; x3; x4] -> ref_gt (real w) (real x2) = Ok false
    | real u =>
        u ∈ [x1; x3; x4] /\ ref_gt (real u) (real x2) = Ok true /\
        forall w, w ∈ [x1; x3; x4] -> ref_gt (real w) (real x2) = Ok true ->
                  ref_lt (real w) (real u) = Ok false
    | lowest => False
    end.
Proof.
  apply (succ_least_above x2 [x1; x3; x4]).
  - by vm_compute.
  - repeat (constructor; [by vm_compute |]). constructor.
Defined.

(** ** The exceptions of the helper functions *)

Lemma only_AttributeError_Ok {A : Type} (a : A) : only_AttributeError (Ok a).
Proof. intros e H. discriminate H. Qed.

Lemma only_AttributeError_bind {A B : Type} (m : result A) (k : A -> result B) :
  only_AttributeError m -> (forall a, only_AttributeError (k a)) ->
  only_AttributeError (bind m k).
Proof.
  intros Hm Hk e H. destruct m as [a|e']; simpl in H.
  - by apply (Hk a).
  - apply Hm. congruence.
Qed.

Lemma only_AttributeError_rs (v : SkipNodeReference) :
  only_AttributeError (rs v).
Proof. unfold rs. intros e H. destruct (_rs v); congruence. Qed.

Lemma only_AttributeError_prefix (i : nat) (v : SkipNodeReference) :
  only_AttributeError (prefix i v).
Proof.
  apply only_AttributeError_bind; [apply only_AttributeError_rs |].
  intros a. apply only_AttributeError_Ok.
Qed.

Lemma only_AttributeError_ref_lt (a b : Ref) : only_AttributeError (ref_lt a b).
Proof.
  destruct a as [| |x], b as [| |y]; simpl; try apply only_AttributeError_Ok.
  apply only_AttributeError_bind; [apply only_AttributeError_rs |]. intros rx.
  apply only_AttributeError_bind; [apply only_AttributeError_rs |]. intros ry.
  apply only_AttributeError_Ok.
Qed.

Lemma only_AttributeError_ref_le (a b : Ref) : only_AttributeError (ref_le a b).
Proof.
  apply only_AttributeError_bind; [apply only_AttributeError_ref_lt |].
  intros c. apply only_AttributeError_Ok.
Qed.

Lemma only_AttributeError_filterM {A : Type} (p : A -> result bool) (l : list A) :
  (forall x, only_AttributeError (p x)) -> only_AttributeError (filterM p l).
Proof.
  intros Hp. induction l as [|x l IH]; simpl; [apply only_AttributeError_Ok |].
  apply only_AttributeError_bind; [apply Hp |]. intros b.
  apply only_AttributeError_bind; [apply IH |]. intros r.
  apply only_AttributeError_Ok.
Qed.

Lemma only_AttributeError_max_from (cur : Ref) (l : list Ref) :
  only_AttributeError (max_from cur l).
Proof.
  revert cur. induction l as [|x l IH]; intros cur; simpl;
    [apply only_AttributeError_Ok |].
  apply only_AttributeError_bind; [apply only_AttributeError_ref_lt |].
  intros b. apply IH.
Qed.

Lemma only_AttributeError_min_from (cur : Ref) (l : list Ref) :
  only_AttributeError (min_from cur l).
Proof.
  revert cur. induction l as [|x l IH]; intros cur; simpl;
    [apply only_AttributeError_Ok |].
  apply only_AttributeError_bind; [apply only_AttributeError_ref_lt |].
  intros b. apply IH.
Qed.

Lemma only_AttributeError_py_max (l : list Ref) :
  l <> [] -> only_AttributeError (py_max l).
Proof. destruct l; [done |]. intros _. apply only_AttributeError_max_from. Qed.

Lemma only_AttributeError_py_min (l : list Ref) :
  l <> [] -> only_AttributeError (py_min l).
Proof. destruct l; [done |]. intros _. apply only_AttributeError_min_from. Qed.

Lemma only_AttributeError_pred (v : SkipNodeReference)
    (W : list SkipNodeReference) : only_AttributeError (pred v W).
Proof.
  apply only_AttributeError_bind.
  - apply only_AttributeError_filterM. intros w. apply only_AttributeError_ref_lt.
  - intros below. apply only_AttributeError_py_max.
    by destruct (map real below).
Qed.

Lemma only_AttributeError_succ (v : SkipNodeReference)
    (W : list SkipNodeReference) : only_AttributeError (succ v W).
Proof.
  apply only_AttributeError_bind.
  - apply only_AttributeError_filterM. intros w. apply only_AttributeError_ref_lt.
  - intros above. apply only_AttributeError_py_min.
    by destruct (map real above).
Qed.

Lemma only_AttributeError__levelNodes (i : nat) (v : SkipNodeReference)
    (x : bool) (N : list SkipNodeReference) :
  only_AttributeError (_levelNodes i v x N).
Proof.
  apply only_AttributeError_bind; [apply only_AttributeError_prefix |].
  intros pref. apply only_AttributeError_filterM. intros w.
  apply only_AttributeError_bind; [apply only_AttributeError_prefix |].
  intros pw. apply only_AttributeError_Ok.
Qed.

Lemma only_AttributeError_levelPred (i : nat) (v : SkipNodeReference)
    (x : bool) (N : list SkipNodeReference) :
  only_AttributeError (levelPred i v x N).
Proof.
  apply only_AttributeError_bind; [apply only_AttributeError__levelNodes |].
  intros W. apply only_AttributeError_pred.
Qed.

Lemma only_AttributeError_levelSucc (i : nat) (v : SkipNodeReference)
    (x : bool) (N : list SkipNodeReference) :
  only_AttributeError (levelSucc i v x N).
Proof.
  apply only_AttributeError_bind; [apply only_AttributeError__levelNodes |].
  intros W. apply only_AttributeError_succ.
Qed.

Lemma only_AttributeError_low (i : nat) (v : SkipNodeReference)
    (N : list SkipNodeReference) : only_AttributeError (low i v N).
Proof.
  apply only_AttributeError_bind; [apply only_AttributeError_levelPred |].
  intros p0.
  apply only_AttributeError_bind; [apply only_AttributeError_levelPred |].
  intros p1. apply only_AttributeError_min_from.
Qed.

Lemma only_AttributeError_high (i : nat) (v : SkipNodeReference)
    (N : list SkipNodeReference) : only_AttributeError (high i v N).
Proof.
  apply only_AttributeError_bind; [apply only_AttributeError_levelSucc |].
  intros s0.
  apply only_AttributeError_bind; [apply only_AttributeError_levelSucc |].
  intros s1. apply only_AttributeError_max_from.
Qed.

Lemma only_AttributeError_skipRange (i : nat) (v : SkipNodeReference)
    (N : list SkipNodeReference) : only_AttributeError (skipRange i v N).
Proof.
  apply only_AttributeError_bind; [apply only_AttributeError_prefix |].
  intros pv.
  apply only_AttributeError_bind; [apply only_AttributeError_low |]. intros l.
  apply only_AttributeError_bind; [apply only_AttributeError_high |]. intros h.
  apply only_AttributeError_filterM. intros w.
  apply only_AttributeError_bind; [apply only_AttributeError_prefix |].
  intros pw. destruct (bits_eqb pw pv); [| apply only_AttributeError_Ok].
  apply only_AttributeError_bind; [apply only_AttributeError_ref_le |].
  intros b. destruct b; [apply only_AttributeError_ref_le |
                         apply only_AttributeError_Ok].
Qed.

Lemma prefix_Ok_has_rs (i : nat) (v : SkipNodeReference) (p : BitString) :
  prefix i v = Ok p -> has_rs v.
Proof.
  unfold prefix. intros H. inv_bind. apply has_rs_rs. eauto.
Qed.

Lemma skipRange_Ok_has_rs (i : nat) (v : SkipNodeReference)
    (N R : list SkipNodeReference) :
  skipRange i v N = Ok R -> has_rs v /\ Forall has_rs N.
Proof.
  unfold skipRange. intros H. inv_bind. split; [by eapply prefix_Ok_has_rs |].
  apply Forall_forall. intros w Hw.
  destruct (filterM_defined _ _ _ H w Hw) as [b Hb].
  inv_bind. by eapply prefix_Ok_has_rs.
Qed.

(** X5. [skipRange(i, v, N)] returns exactly when [v] and every element
    of [N] carry a bit string; otherwise it raises, and the exception is
    the [AttributeError] of the [rs] property. *)
Theorem skipRange_raises_on_missing_rs (i : nat) (v : SkipNodeReference)
    (N : list SkipNodeReference) :
  (has_rs v /\ Forall has_rs N -> exists R, skipRange i v N = Ok R) /\
  (~ (has_rs v /\ Forall has_rs N) -> skipRange i v N = Raise AttributeError).
Proof.
  split.
  - intros [Hv HN]. destruct (skipRange_total i v N Hv HN) as (R & HR & _). eauto.
  - intros Hnot. destruct (skipRange i v N) as [R|e] eqn:H.
    + destruct Hnot. by eapply skipRange_Ok_has_rs.
    + f_equal. by apply (only_AttributeError_skipRange i v N).
Qed.

Lemma skipRange_raises_on_missing_rs_witness :
  (exists R, skipRange 3 x2 [x1; x3; x4] = Ok R) /\
  skipRange 3 x2 [x1; SkipNodeReference_init (Some "localhost") (Some 33005%Z) None]
    = Raise AttributeError.
Proof.
  split.
  - apply (skipRange_raises_on_missing_rs 3 x2 [x1; x3; x4]). split.
    + by vm_compute.
    + repeat (constructor; [by vm_compute |]). constructor.
  - apply (skipRange_raises_on_missing_rs 3 x2).
    intros [_ H]. apply Forall_cons in H as [_ H].
    apply Forall_cons in H as [H _]. by apply H.
Defined.

(** X6. The range computed from a set does not depend on the order in
    which the set is iterated: on another iteration order of [N],
    [skipRange] returns the same elements. *)
Theorem skipRange_order_independent (i : nat) (v : SkipNodeReference)
    (N N' : list SkipNodeReference) :
  has_rs v -> Forall has_rs N -> N ≡ₚ N' ->
  exists R R',
    skipRange i v N = Ok R /\ skipRange i v N' = Ok R' /\
    R ≡ₚ R' /\ forall w, w ∈ R <-> w ∈ R'.
Proof.
  intros Hv HN Hp. destruct (skipRange_total i v N Hv HN) as (R & HR & _).
  destruct (skipRange_Permutation i v N N' R HN Hp HR) as (R' & HR' & HRR).
  exists R, R'. split; [done |]. split; [done |]. split; [done |].
  intros w. by rewrite HRR.
Qed.

Lemma skipRange_order_independent_witness :
  exists R R',
    skipRange 0 x2 [x1; x3; x4] = Ok R /\ skipRange 0 x2 [x4; x1; x3] = Ok R' /\
    R ≡ₚ R' /\ forall w, w ∈ R <-> w ∈ R'.
Proof.
  apply (skipRange_order_independent 0 x2 [x1; x3; x4] [x4; x1; x3]).
  - by vm_compute.
  - repeat (constructor; [by vm_compute |]). constructor.
  - change [x4; x1; x3] with ([x4] ++ [x1; x3]).
    change [x1; x3; x4] with ([x1; x3] ++ [x4]).
    apply Permutation_app_comm.
Defined.

(** ** The nearest neighbours of a level lie in its range *)

Lemma ref_lt_trans (a b c : Ref) :
  ref_lt a b = Ok true -> ref_lt b c = Ok true -> ref_lt a c = Ok true.
Proof.
  destruct a as [| |x], b as [| |y], c as [| |z]; simpl; try done.
  unfold rs. destruct (_rs x), (_rs y), (_rs z); simpl; try done.
  intros [= H1] [= H2]. f_equal. by eapply bits_ltb_trans.
Qed.

Lemma max_from_elem_of (cur : Ref) (l : list Ref) (m : Ref) :
  max_from cur l = Ok m -> m ∈ cur :: l.
Proof.
  revert cur. induction l as [|x l IH]; intros cur H; simpl in H.
  - injection H as <-. left.
  - inv_bind. apply IH in H. destruct a.
    + by right.
    + apply elem_of_cons in H as [-> | H]; [left | right; by right].
Qed.

Lemma min_from_elem_of (cur : Ref) (l : list Ref) (m : Ref) :
  min_from cur l = Ok m -> m ∈ cur :: l.
Proof.
  revert cur. induction l as [|x l IH]; intros cur H; simpl in H.
  - injection H as <-. left.
  - inv_bind. apply IH in H. destruct a.
    + by right.
    + apply elem_of_cons in H as [-> | H]; [left | right; by right].
Qed.

Lemma py_max_elem_of (l : list Ref) (m : Ref) : py_max l = Ok m -> m ∈ l.
Proof. destruct l; [done |]. apply max_from_elem_of. Qed.

Lemma py_min_elem_of (l : list Ref) (m : Ref) : py_min l = Ok m -> m ∈ l.
Proof. destruct l; [done |]. apply min_from_elem_of. Qed.

(** What [pred] returns is [lowest] or an element of [W] below [v]. *)
Lemma pred_inv (v : SkipNodeReference) (W : list SkipNodeReference) (m : Ref) :
  pred v W = Ok m ->
  m = lowest \/
  exists u, m = real u /\ u ∈ W /\ ref_lt (real u) (real v) = Ok true.
Proof.
  unfold pred. intros H. inv_bind. rename a into below.
  apply py_max_elem_of in H.
  apply elem_of_app in H as [H | H%list_elem_of_singleton]; [| by left].
  apply list_elem_of_fmap in H as (u & -> & Hu).
  apply (filterM_elem_of _ _ _ Ha) in Hu as [HuW Hlt]. right. eauto.
Qed.

(** What [succ] returns is [highest] or an element of [W] above [v]. *)
Lemma succ_inv (v : SkipNodeReference) (W : list SkipNodeReference) (m : Ref) :
  succ v W = Ok m ->
  m = highest \/
  exists u, m = real u /\ u ∈ W /\ ref_lt (real v) (real u) = Ok true.
Proof.
  unfold succ. intros H. inv_bind. rename a into above.
  apply py_min_elem_of in H.
  apply elem_of_app in H as [H | H%list_elem_of_singleton]; [| by left].
  apply list_elem_of_fmap in H as (u & -> & Hu).
  apply (filterM_elem_of _ _ _ Ha) in Hu as [HuW Hgt]. right. eauto.
Qed.

(** An element of a branch of level [i] shares the prefix of length [i];
    this needs [v] to have [i] bits. *)
Lemma _levelNodes_prefix (i : nat) (v : SkipNodeReference) (x : bool)
    (N W : list SkipNodeReference) (b : BitString) (w : SkipNodeReference) :
  _rs v = Some b -> i <= length b ->
  _levelNodes i v x N = Ok W -> w ∈ W ->
  w ∈ N /\ prefix i w = Ok (take i b) /\ prefix i v = Ok (take i b).
Proof.
  intros Hb Hi H Hw. unfold _levelNodes, prefix in H.
  apply rs_Ok in Hb. rewrite Hb in H. simpl in H.
  apply (filterM_elem_of _ _ _ H) in Hw as [HwN Hp]. split; [done |].
  inv_bind. rename a0 into bw. subst a. unfold bits_eqb in Hp.
  apply bool_decide_eq_true in Hp. unfold prefix. rewrite Ha0, Hb. simpl.
  split; [| done]. f_equal.
  assert (take i (take (i + 1) bw) = take i (take i b ++ [x])) as Heq
    by by rewrite Hp.
  rewrite take_take, Nat.min_l in Heq by lia. rewrite Heq.
  rewrite take_app_le by (rewrite length_take; lia).
  rewrite take_take. f_equal. lia.
Qed.

Lemma low_inv (i : nat) (v : SkipNodeReference) (N : list SkipNodeReference)
    (l : Ref) :
  low i v N = Ok l ->
  l = lowest \/ exists u, l = real u /\ ref_lt (real u) (real v) = Ok true.
Proof.
  unfold low, levelPred. intros H.
  apply bind_Ok in H as (p0 & H0 & H). apply bind_Ok in H as (p1 & H1 & H).
  apply bind_Ok in H0 as (W0 & _ & H0). apply bind_Ok in H1 as (W1 & _ & H1).
  apply py_min_elem_of in H. apply pred_inv in H0, H1.
  apply elem_of_cons in H as [-> | H].
  - destruct H0 as [-> | (u & -> & _ & Hu)]; [by left | right; eauto].
  - apply list_elem_of_singleton in H as ->.
    destruct H1 as [-> | (u & -> & _ & Hu)]; [by left | right; eauto].
Qed.

Lemma high_inv (i : nat) (v : SkipNodeReference) (N : list SkipNodeReference)
    (h : Ref) :
  high i v N = Ok h ->
  h = highest \/ exists u, h = real u /\ ref_lt (real v) (real u) = Ok true.
Proof.
  unfold high, levelSucc. intros H.
  apply bind_Ok in H as (s0 & H0 & H). apply bind_Ok in H as (s1 & H1 & H).
  apply bind_Ok in H0 as (W0 & _ & H0). apply bind_Ok in H1 as (W1 & _ & H1).
  apply py_max_elem_of in H. apply succ_inv in H0, H1.
  apply elem_of_cons in H as [-> | H].
  - destruct H0 as [-> | (u & -> & _ & Hu)]; [by left | right; eauto].
  - apply list_elem_of_singleton in H as ->.
    destruct H1 as [-> | (u & -> & _ & Hu)]; [by left | right; eauto].
Qed.

(** Everything above [v] is above [low], everything below [v] is below
    [high]. *)
Lemma low_le_above (i : nat) (v : SkipNodeReference)
    (N : list SkipNodeReference) (l : Ref) (w : SkipNodeReference) :
  low i v N = Ok l -> ref_lt (real v) (real w) = Ok true ->
  ref_le l (real w) = Ok true.
Proof.
  intros Hl Hw. apply low_inv in Hl as [-> | (u & -> & Hu)].
  - unfold ref_le. simpl. done.
  - apply ref_lt_le. by eapply ref_lt_trans.
Qed.

Lemma below_le_high (i : nat) (v : SkipNodeReference)
    (N : list SkipNodeReference) (h : Ref) (w : SkipNodeReference) :
  high i v N = Ok h -> ref_lt (real w) (real v) = Ok true ->
  ref_le (real w) h = Ok true.
Proof.
  intros Hh Hw. apply high_inv in Hh as [-> | (u & -> & Hu)].
  - unfold ref_le. simpl. done.
  - apply ref_lt_le. by eapply ref_lt_trans.
Qed.

Lemma high_ge_levelSucc (i : nat) (v : SkipNodeReference) (x : bool)
    (N : list SkipNodeReference) (h s : Ref) :
  has_rs v -> Forall has_rs N ->
  high i v N = Ok h -> levelSucc i v x N = Ok s -> ref_le s h = Ok true.
Proof.
  intros Hv HN Hh Hs. unfold high in Hh.
  apply bind_Ok in Hh as (s0 & H0 & Hh). apply bind_Ok in Hh as (s1 & H1 & Hh).
  destruct (levelSucc_total i v false N Hv HN) as (s0' & H0' & W0).
  destruct (levelSucc_total i v true N Hv HN) as (s1' & H1' & W1).
  assert (s0' = s0) as -> by congruence.
  assert (s1' = s1) as -> by congruence.
  assert (is_greatest h [s0; s1]) as [_ Hmax].
  { apply py_max_greatest; [| done].
    apply Forall_cons. split; [done |]. by apply Forall_singleton. }
  apply ref_not_lt_le. apply Hmax.
  destruct x.
  - assert (s = s1) as -> by congruence. right. left.
  - assert (s = s0) as -> by congruence. left.
Qed.

Lemma low_le_levelPred (i : nat) (v : SkipNodeReference) (x : bool)
    (N : list SkipNodeReference) (l p : Ref) :
  has_rs v -> Forall has_rs N ->
  low i v N = Ok l -> levelPred i v x N = Ok p -> ref_le l p = Ok true.
Proof.
  intros Hv HN Hl Hp. unfold low in Hl.
  apply bind_Ok in Hl as (p0 & H0 & Hl). apply bind_Ok in Hl as (p1 & H1 & Hl).
  destruct (levelPred_total i v false N Hv HN) as (p0' & H0' & W0).
  destruct (levelPred_total i v true N Hv HN) as (p1' & H1' & W1).
  assert (p0' = p0) as -> by congruence.
  assert (p1' = p1) as -> by congruence.
  assert (is_least l [p0; p1]) as [_ Hmin].
  { apply py_min_least; [| done].
    apply Forall_cons. split; [done |]. by apply Forall_singleton. }
  apply ref_not_lt_le. apply Hmin.
  destruct x.
  - assert (p = p1) as -> by congruence. right. left.
  - assert (p = p0) as -> by congruence. left.
Qed.

Lemma levelSucc_in_range (i : nat) (v : SkipNodeReference) (x : bool)
    (N R : list SkipNodeReference) (b : BitString) (w : SkipNodeReference) :
  _rs v = Some b -> i <= length b -> Forall has_rs N ->
  skipRange i v N = Ok R -> levelSucc i v x N = Ok (real w) -> w ∈ R.
Proof.
  intros Hb Hi HN HR Hs.
  assert (has_rs v) as Hv by (unfold has_rs; congruence).
  apply (skipRange_elem_of _ _ _ _ HR).
  destruct (low_total i v N Hv HN) as (l & Hl & _).
  destruct (high_total i v N Hv HN) as (h & Hh & _).
  pose proof Hs as Hs'. unfold levelSucc in Hs'.
  apply bind_Ok in Hs' as (W & HW & Hsucc).
  apply succ_inv in Hsucc as [? | (u & [= <-] & Hu & Hgt)]; [done |].
  destruct (_levelNodes_prefix i v x N W b w Hb Hi HW Hu) as (HwN & Hpw & Hpv).
  split; [done |]. exists (take i b), l, h. repeat split; try done.
  - by eapply low_le_above.
  - by eapply high_ge_levelSucc.
Qed.

Lemma levelPred_in_range (i : nat) (v : SkipNodeReference) (x : bool)
    (N R : list SkipNodeReference) (b : BitString) (w : SkipNodeReference) :
  _rs v = Some b -> i <= length b -> Forall has_rs N ->
  skipRange i v N = Ok R -> levelPred i v x N = Ok (real w) -> w ∈ R.
Proof.
  intros Hb Hi HN HR Hp.
  assert (has_rs v) as Hv by (unfold has_rs; congruence).
  apply (skipRange_elem_of _ _ _ _ HR).
  destruct (low_total i v N Hv HN) as (l & Hl & _).
  destruct (high_total i v N Hv HN) as (h & Hh & _).
  pose proof Hp as Hp'. unfold levelPred in Hp'.
  apply bind_Ok in Hp' as (W & HW & Hpred).
  apply pred_inv in Hpred as [? | (u & [= <-] & Hu & Hlt)]; [done |].
  destruct (_levelNodes_prefix i v x N W b w Hb Hi HW Hu) as (HwN & Hpw & Hpv).
  split; [done |]. exists (take i b), l, h. repeat split; try done.
  - by eapply low_le_levelPred.
  - by eapply below_le_high.
Qed.

(** X7. The nearest neighbour above and the nearest neighbour below on
    either branch of level [i] are elements of the range of that level,
    provided [v] has at least [i] bits. *)
Theorem level_neighbours_in_range (i : nat) (v : SkipNodeReference) (x : bool)
    (N : list SkipNodeReference) (b : BitString) (w : SkipNodeReference) :
  _rs v = Some b -> i <= length b -> Forall has_rs N ->
  levelSucc i v x N = Ok (real w) \/ levelPred i v x N = Ok (real w) ->
  exists R, skipRange i v N = Ok R /\ w ∈ R.
Proof.
  intros Hb Hi HN Hw.
  assert (has_rs v) as Hv by (unfold has_rs; congruence).
  destruct (skipRange_total i v N Hv HN) as (R & HR & _).
  exists R. split; [done |]. destruct Hw as [Hs | Hp].
  - by eapply levelSucc_in_range.
  - by eapply levelPred_in_range.
Qed.

Lemma level_neighbours_in_range_witness :
  exists R, skipRange 1 x2 [x1; x3; x4] = Ok R /\ x3 ∈ R.
Proof.
  apply (level_neighbours_in_range 1 x2 true [x1; x3; x4]
           (bits "0010000000000000") x3).
  - reflexivity.
  - simpl. lia.
  - repeat (constructor; [by vm_compute |]). constructor.
  - left. by vm_compute.
Defined.

(** ** The node across calls *)

Lemma linearise_node_rs (u : SkipNodeReference) (s : SkipNode) :
  node_rs (linearise u s).1.2 = node_rs s.
Proof.
  destruct (linearise_cases u s) as [H | [H1 H2]].
  - by rewrite linearise_known.
  - by destruct (linearise_fresh u s H1 H2) as (r & s' & -> & _ & _ & Hrs & _).
Qed.

Lemma run_node_rs (ops : list Op) (s : SkipNode) :
  node_rs (run ops s) = node_rs s.
Proof.
  revert s. induction ops as [|o ops IH]; intros s; simpl; [done |].
  rewrite IH. destruct o; simpl; [apply linearise_node_rs | done].
Qed.

Lemma step_reference_not_in_N (s : SkipNode) (o : Op) :
  reference s ∉ N s -> reference (step s o) ∉ N (step s o).
Proof.
  intros Hs. destruct o as [u|]; simpl; [| done].
  rewrite linearise_reference, linearise_N.
  case_bool_decide as Hu; [| done]. destruct Hu as [Hne _].
  intros [Hin | Hin%list_elem_of_singleton]%elem_of_app; [done | congruence].
Qed.

(** X8. A node is never its own neighbour: in every state reached from
    the constructor by [linearise] and [timeout] calls the node's
    reference is the one built by the constructor and is not in [N];
    and after [linearise(u)] every [u] other than that reference is in
    [N], whether or not the call raised. *)
Theorem reference_never_in_N (h : string) (p : Z) (b : BitString)
    (ops : list Op) :
  let s := run ops (SkipNode_init h p b) in
  reference s = SkipNodeReference_init (Some h) (Some p) (Some b) /\
  (reference s ∉ N s) /\
  (forall u, u <> reference s -> u ∈ N (linearise u s).1.2).
Proof.
  intros s. split; [apply run_reference |]. split.
  - subst s. induction ops as [|o ops IH] using rev_ind.
    + simpl. intros H. inversion H.
    + rewrite run_app. simpl. by apply step_reference_not_in_N.
  - intros u Hu. rewrite linearise_N. case_bool_decide as Hg.
    + apply elem_of_app. right. by apply list_elem_of_singleton.
    + destruct (decide (u ∈ N s)) as [Hin | Hnin]; [done |].
      destruct Hg. by split.
Qed.

Lemma reference_never_in_N_witness :
  x2 ∈ N (linearise x2
            (run [call_linearise x1]
               (SkipNode_init "localhost" 33000 (bits "1000000000000000")))).1.2.
Proof.
  destruct (reference_never_in_N "localhost" 33000 (bits "1000000000000000")
              [call_linearise x1]) as (_ & _ & Hin).
  apply Hin. by vm_compute.
Defined.

(** X9. The bit string returned by the remote method [rs()] of a node is
    the one its reference carries, in every state the node reaches. *)
Theorem node_rs_is_reference_rs (h : string) (p : Z) (b : BitString)
    (ops : list Op) :
  let s := run ops (SkipNode_init h p b) in
  rs (reference s) = Ok (SkipNode_rs s) /\ SkipNode_rs s = b.
Proof.
  intros s. subst s. unfold SkipNode_rs.
  by rewrite run_reference, run_node_rs.
Qed.

(** ** updateRanges: all levels or none *)

Lemma updateRanges_raise_unchanged (s s' : SkipNode) (e : PyError) :
  updateRanges s = (Raise e, s') ->
  s' = s /\ e = AttributeError /\
  ~ (has_rs (reference s) /\ Forall has_rs (N s)).
Proof.
  intros H.
  assert (~ (has_rs (reference s) /\ Forall has_rs (N s))) as Hnot.
  { intros [Hv HN]. destruct (updateRanges_total s Hv HN) as [s'' Hs''].
    congruence. }
  split; [| split; [| done]].
  - unfold updateRanges, range in H.
    change (seq 0 (RS_BIT_LENGTH - 1)) with (0 :: seq 1 14) in H.
    cbn [updateRanges_loop] in H.
    destruct (skipRange 0 (reference s) (N s)) as [R|e0] eqn:HR.
    + destruct Hnot. by eapply skipRange_Ok_has_rs.
    + by injection H as _ <-.
  - unfold updateRanges, range in H.
    change (seq 0 (RS_BIT_LENGTH - 1)) with (0 :: seq 1 14) in H.
    cbn [updateRanges_loop] in H.
    destruct (skipRange 0 (reference s) (N s)) as [R|e0] eqn:HR.
    + destruct Hnot. by eapply skipRange_Ok_has_rs.
    + injection H as <- _. by apply (only_AttributeError_skipRange _ _ _ _ HR).
Qed.

Lemma SkipNode_eq (s t : SkipNode) :
  reference s = reference t -> node_rs s = node_rs t -> N s = N t ->
  _ranges s = _ranges t -> _nodesInRanges s = _nodesInRanges t -> s = t.
Proof. destruct s, t; simpl. by intros -> -> -> -> ->. Qed.

Lemma updateRanges_missing_rs (s : SkipNode) :
  ~ (has_rs (reference s) /\ Forall has_rs (N s)) ->
  updateRanges s = (Raise AttributeError, s).
Proof.
  intros Hnot. destruct (updateRanges s) as [[[]|e] s'] eqn:H.
  - destruct Hnot. apply updateRanges_spec in H as (_ & _ & _ & _ & _ & Hlev).
    destruct (Hlev 0) as (R & _ & HR).
    { unfold RS_BIT_LENGTH, RS_BYTE_LENGTH. simpl. lia. }
    by eapply skipRange_Ok_has_rs.
  - by apply updateRanges_raise_unchanged in H as (-> & -> & _).
Qed.

(** X10. [updateRanges] is all or nothing, and running it again changes
    nothing: it either returns with the ranges of all fifteen levels
    rewritten, or raises [AttributeError] (a reference without a bit
    string is involved) and leaves the node exactly as it was; a second
    run gives the same outcome and the same node. *)
Theorem updateRanges_all_or_nothing (s : SkipNode) :
  (has_rs (reference s) /\ Forall has_rs (N s) ->
   (updateRanges s).1 = Ok tt) /\
  (~ (has_rs (reference s) /\ Forall has_rs (N s)) ->
   updateRanges s = (Raise AttributeError, s)) /\
  updateRanges (updateRanges s).2 = updateRanges s.
Proof.
  split; [| split].
  - intros [Hv HN]. by destruct (updateRanges_total s Hv HN) as [s' ->].
  - apply updateRanges_missing_rs.
  - destruct (updateRanges s) as [[[]|e] s'] eqn:H; simpl.
    + pose proof (updateRanges_spec _ _ _ H) as (Href & Hrs & HN & Hout & Hnir & Hlev).
      destruct (updateRanges s') as [[[]|e'] s''] eqn:H'.
      * pose proof (updateRanges_spec _ _ _ H')
          as (Href' & Hrs' & HN' & Hout' & Hnir' & Hlev').
        f_equal. apply SkipNode_eq; try congruence.
        apply map_eq. intros i.
        destruct (decide (i < RS_BIT_LENGTH - 1)) as [Hi | Hi].
        -- destruct (Hlev i Hi) as (R & -> & HR).
           destruct (Hlev' i Hi) as (R' & -> & HR').
           rewrite Href, HN in HR'. congruence.
        -- apply Hout'. lia.
      * apply updateRanges_raise_unchanged in H' as (_ & _ & Hnot).
        destruct Hnot. rewrite Href, HN.
        destruct (Hlev 0) as (R & _ & HR).
        { unfold RS_BIT_LENGTH, RS_BYTE_LENGTH. simpl. lia. }
        by eapply skipRange_Ok_has_rs.
    + pose proof (updateRanges_raise_unchanged _ _ _ H) as (-> & -> & _). done.
Qed.

Lemma updateRanges_all_or_nothing_witness :
  (updateRanges one_neighbour).1 = Ok tt /\
  updateRanges (set_N [SkipNodeReference_init None None None] one_neighbour)
    = (Raise AttributeError,
       set_N [SkipNodeReference_init None None None] one_neighbour).
Proof.
  split.
  - destruct (updateRanges_all_or_nothing one_neighbour) as (Hok & _ & _).
    apply Hok. split.
    + by vm_compute.
    + repeat (constructor; [by vm_compute |]). constructor.
  - destruct (updateRanges_all_or_nothing
                (set_N [SkipNodeReference_init None None None] one_neighbour))
      as (_ & Hraise & _).
    apply Hraise. intros [_ H]. apply Forall_cons in H as [H _]. by apply H.
Defined.

(** ** linearise and references without a bit string *)

(** X11. On a node that has only been given references with a bit
    string, [linearise(u)] with such a [u] returns without raising and
    issues no call, and afterwards the range of every level is
    [skipRange] of the node's reference and its new [N]. *)
Theorem linearise_returns (h : string) (p : Z) (b : BitString)
    (ops : list Op) (u : SkipNodeReference) :
  Forall op_has_rs ops -> has_rs u ->
  let s := run ops (SkipNode_init h p b) in
  exists s',
    linearise u s = (Ok tt, s', []) /\
    forall i, i < RS_BIT_LENGTH - 1 ->
      exists R, _ranges s' !! i = Some R /\
                skipRange i (reference s') (N s') = Ok R.
Proof.
  intros Hops Hu s.
  pose proof (node_inv_run ops _ Hops (node_inv_init h p b)) as Hinv.
  fold s in Hinv.
  pose proof (node_inv_step s (call_linearise u) Hu Hinv) as Hinv'.
  simpl in Hinv'. destruct Hinv' as (_ & _ & _ & Hlev).
  destruct (linearise_cases u s) as [H | [H1 H2]].
  - rewrite linearise_known in * by done. by exists s.
  - destruct (linearise_fresh u s H1 H2) as (r & s' & Hlin & Hup & _ & _ & _).
    rewrite Hlin in Hlev. simpl in Hlev.
    destruct Hinv as (Hv & HN & _ & _).
    destruct (updateRanges_total (set_N (N s ++ [u]) s)) as [s'' Hs''].
    { done. }
    { simpl. apply Forall_app. split; [done | by apply Forall_singleton]. }
    exists s'. split; [| done]. rewrite Hlin. congruence.
Qed.

Lemma linearise_returns_witness :
  exists s',
    linearise x3 (run [call_linearise x1; call_timeout]
                    (SkipNode_init "localhost" 33000 (bits "1000000000000000")))
      = (Ok tt, s', []) /\
    forall i, i < RS_BIT_LENGTH - 1 ->
      exists R, _ranges s' !! i = Some R /\
                skipRange i (reference s') (N s') = Ok R.
Proof.
  apply (linearise_returns "localhost" 33000 (bits "1000000000000000")
           [call_linearise x1; call_timeout] x3).
  - repeat (constructor; [by vm_compute |]). constructor.
  - by vm_compute.
Defined.

Lemma linearise_raises (u : SkipNodeReference) (s : SkipNode) :
  u <> reference s -> u ∉ N s ->
  ~ (has_rs (reference s) /\ Forall has_rs (N s ++ [u])) ->
  linearise u s = (Raise AttributeError, set_N (N s ++ [u]) s, []).
Proof.
  intros H1 H2 Hnot.
  destruct (linearise_fresh u s H1 H2) as (r & s' & Hlin & Hup & _).
  rewrite updateRanges_missing_rs in Hup by done. by injection Hup as <- <-.
Qed.

Lemma step_poisoned (s : SkipNode) (o : Op) :
  ~ Forall has_rs (N s) ->
  ~ Forall has_rs (N (step s o)) /\
  _ranges (step s o) = _ranges s /\
  _nodesInRanges (step s o) = _nodesInRanges s.
Proof.
  intros Hbad. destruct o as [u|]; simpl; [| done].
  destruct (linearise_cases u s) as [H | [H1 H2]].
  - by rewrite linearise_known.
  - rewrite linearise_raises; try done.
    + simpl. split; [| done]. intros [H _]%Forall_app. done.
    + intros [_ [H _]%Forall_app]. done.
Qed.

(** X12. A reference without a bit string poisons the node.
    [linearise(u)] with a new [u] raises [AttributeError] as soon as [u]
    or an element of [N] lacks the bit string, after having added [u] to
    [N] and with every other field as it was.  Once [N] holds such a
    reference it keeps one, and no later call changes [_ranges] or
    [_nodesInRanges] again. *)
Theorem linearise_missing_rs_poisons (s : SkipNode) :
  (forall u, u <> reference s -> u ∉ N s ->
     ~ Forall has_rs (N s ++ [u]) ->
     linearise u s = (Raise AttributeError, set_N (N s ++ [u]) s, [])) /\
  (~ Forall has_rs (N s) ->
   forall ops,
     ~ Forall has_rs (N (run ops s)) /\
     _ranges (run ops s) = _ranges s /\
     _nodesInRanges (run ops s) = _nodesInRanges s).
Proof.
  split.
  - intros u H1 H2 Hbad. apply linearise_raises; try done.
    intros [_ H]. done.
  - intros Hbad ops. revert s Hbad.
    induction ops as [|o ops IH]; intros s Hbad; simpl; [done |].
    destruct (step_poisoned s o Hbad) as (Hbad' & Hr & Hn).
    destruct (IH _ Hbad') as (H1 & H2 & H3).
    split; [done |]. split; congruence.
Qed.

Lemma linearise_missing_rs_poisons_witness :
  linearise (SkipNodeReference_init (Some "localhost") (Some 33009%Z) None)
    example_node
  = (Raise AttributeError,
     set_N (N example_node
            ++ [SkipNodeReference_init (Some "localhost") (Some 33009%Z) None])
       example_node, []).
Proof.
  destruct (linearise_missing_rs_poisons example_node) as [Hraise _].
  apply Hraise.
  - by vm_compute.
  - apply (bool_decide_unpack _). by vm_compute.
  - intros [_ H]%Forall_app. apply Forall_cons in H as [H _]. by apply H.
Defined.

(** ** The keys of _ranges *)

Lemma SkipNode_init_ranges_keys (h : string) (p : Z) (b : BitString) (i : nat) :
  is_Some (_ranges (SkipNode_init h p b) !! i) <-> i < RS_BIT_LENGTH - 1.
Proof.
  split.
  - intros [R HR]. destruct (decide (i < RS_BIT_LENGTH - 1)) as [|Hi]; [done |].
    assert (_ranges (SkipNode_init h p b) !! i = None) as Hnone; [| congruence].
    apply not_elem_of_list_to_map_1.
    rewrite <- list_fmap_compose. intros Hin.
    apply list_elem_of_fmap in Hin as (j & Hij & Hj).
    simpl in Hij. subst j. by apply elem_of_levels in Hj.
  - intros Hi. rewrite SkipNode_init_ranges by done. eauto.
Qed.

Lemma step_ranges_keys (s : SkipNode) (o : Op) :
  (forall i, is_Some (_ranges s !! i) <-> i < RS_BIT_LENGTH - 1) ->
  forall i, is_Some (_ranges (step s o) !! i) <-> i < RS_BIT_LENGTH - 1.
Proof.
  intros Hs. destruct o as [u|]; simpl; [| done].
  destruct (linearise_cases u s) as [H | [H1 H2]].
  - by rewrite linearise_known.
  - destruct (linearise_fresh u s H1 H2) as (r & s' & -> & Hup & _). simpl.
    pose proof (updateRanges_spec _ _ _ Hup) as (_ & _ & _ & Hout & Hr).
    destruct r as [[]|e].
    + destruct Hr as [_ Hlev]. intros i. split.
      * intros Hsome. destruct (decide (i < RS_BIT_LENGTH - 1)) as [|Hi]; [done |].
        rewrite Hout in Hsome by lia. simpl in Hsome. by apply Hs.
      * intros Hi. destruct (Hlev i Hi) as (R & -> & _). eauto.
    + apply updateRanges_raise_unchanged in Hup as (-> & _). done.
Qed.

(** X13. The dictionary [_ranges] has exactly the keys 0 to 14 in every
    state a node reaches, whatever it was given: a lookup of a level in
    [timeout] never raises [KeyError]. *)
Theorem ranges_keys (h : string) (p : Z) (b : BitString)
    (ops : list Op) (i : nat) :
  is_Some (_ranges (run ops (SkipNode_init h p b)) !! i)
  <-> i < RS_BIT_LENGTH - 1.
Proof.
  revert i. induction ops as [|o ops IH] using rev_ind.
  - intros i. apply SkipNode_init_ranges_keys.
  - rewrite run_app. simpl. by apply step_ranges_keys.
Qed.

(** ** When longestCommonPrefixNode returns *)

Lemma commonPrefixKey_Ok_has_rs (w x : SkipNodeReference) (k : nat) :
  commonPrefixKey w x = Ok k -> has_rs w /\ has_rs x.
Proof.
  unfold commonPrefixKey, getattr_rs, rs, has_rs.
  destruct (_rs x), (_rs w); simpl; try done.
Qed.

Lemma max_key_from_inv {A : Type} (key : A -> result nat)
    (cur : A) (kcur : nat) (l : list A) (x : A) :
  max_key_from key cur kcur l = Ok x ->
  x ∈ cur :: l /\ forall y, y ∈ l -> exists ky, key y = Ok ky.
Proof.
  revert cur kcur. induction l as [|y l IH]; intros cur kcur H; simpl in H.
  - injection H as <-. split; [left |]. intros y Hy. inversion Hy.
  - inv_bind. rename a into ky. case_bool_decide.
    + apply IH in H as [Hin Hdef]. split; [by right |].
      intros z [-> | Hz]%elem_of_cons; eauto.
    + apply IH in H as [Hin Hdef]. split.
      * apply elem_of_cons in Hin as [-> | Hin]; [left | right; by right].
      * intros z [-> | Hz]%elem_of_cons; eauto.
Qed.

Lemma longestCommonPrefixNode_inv (w : SkipNodeReference)
    (W : list SkipNodeReference) (x : SkipNodeReference) :
  longestCommonPrefixNode w W = Ok x ->
  x ∈ W /\ has_rs w /\ Forall has_rs W.
Proof.
  unfold longestCommonPrefixNode, py_max_key. destruct W as [|y W]; [done |].
  intros H. inv_bind. rename a into ky.
  apply max_key_from_inv in H as [Hin Hdef].
  destruct (commonPrefixKey_Ok_has_rs _ _ _ Ha) as [Hw Hy].
  split; [done |]. split; [done |]. apply Forall_cons. split; [done |].
  apply Forall_forall. intros z Hz. destruct (Hdef z Hz) as [kz Hkz].
  by apply commonPrefixKey_Ok_has_rs in Hkz as [_ ?].
Qed.

(** X14. [longestCommonPrefixNode(w, W)] raises [ValueError] on an empty
    [W]; on a non-empty [W] it returns an element of [W] when [w] and
    all of [W] carry a bit string; and it returns in no other case. *)
Theorem longestCommonPrefixNode_result (w : SkipNodeReference)
    (W : list SkipNodeReference) :
  (W = [] -> longestCommonPrefixNode w W = Raise ValueError) /\
  (W <> [] -> has_rs w /\ Forall has_rs W ->
   exists x, longestCommonPrefixNode w W = Ok x /\ x ∈ W) /\
  (forall x, longestCommonPrefixNode w W = Ok x ->
   W <> [] /\ x ∈ W /\ has_rs w /\ Forall has_rs W).
Proof.
  split; [by intros -> |]. split.
  - intros HW [Hw Hall].
    destruct (py_max_key_total (commonPrefixKey w) W HW) as [x Hx].
    { intros y Hy. apply commonPrefixKey_total; [done |].
      rewrite Forall_forall in Hall. by apply Hall. }
    exists x. split; [done |]. by apply longestCommonPrefixNode_inv in Hx as [? _].
  - intros x H. split; [by intros -> |].
    by apply longestCommonPrefixNode_inv.
Qed.

Lemma longestCommonPrefixNode_result_witness :
  longestCommonPrefixNode x1 [] = Raise ValueError /\
  (exists x, longestCommonPrefixNode x1 [x2; x3] = Ok x /\ x ∈ [x2; x3]) /\
  ([x2; x3] <> [] /\ x2 ∈ [x2; x3] /\ has_rs x1 /\ Forall has_rs [x2; x3]).
Proof.
  split; [| split].
  - by apply (longestCommonPrefixNode_result x1 []).
  - destruct (longestCommonPrefixNode_result x1 [x2; x3]) as (_ & Hok & _).
    apply Hok; [done |]. split; [by vm_compute |].
    repeat (constructor; [by vm_compute |]). constructor.
  - destruct (longestCommonPrefixNode_result x1 [x2; x3]) as (_ & _ & Hinv).
    apply Hinv. by vm_compute.
Defined.

(** ** Sorting and splitting in timeout *)

Lemma sort_insert_Permutation (x : SkipNodeReference)
    (l r : list SkipNodeReference) :
  sort_insert x l = Ok r -> r ≡ₚ x :: l.
Proof.
  revert r. induction l as [|y l IH]; intros r H; simpl in H.
  - by injection H as <-.
  - apply bind_Ok in H as (c & Hc & H). destruct c.
    + apply bind_Ok in H as (r' & Hr' & H). injection H as <-.
      rewrite (IH _ Hr'). apply perm_swap.
    + by injection H as <-.
Qed.

Lemma sort_insert_total (x : SkipNodeReference) (l : list SkipNodeReference) :
  has_rs x -> Forall has_rs l -> exists r, sort_insert x l = Ok r.
Proof.
  intros Hx. induction l as [|y l IH]; intros Hl; cbn [sort_insert]; [eauto |].
  apply Forall_cons in Hl as [Hy Hl].
  destruct (ref_lt_total (real y) (real x) Hy Hx) as [c ->]. cbn [bind].
  destruct c; [| eauto]. destruct (IH Hl) as [r ->]. cbn [bind]. eauto.
Qed.

Lemma py_sort_Permutation (l r : list SkipNodeReference) :
  py_sort l = Ok r -> r ≡ₚ l.
Proof.
  revert r. induction l as [|x l IH]; intros r H; simpl in H.
  - by injection H as <-.
  - apply bind_Ok in H as (s & Hs & H).
    rewrite (sort_insert_Permutation _ _ _ H). by rewrite (IH _ Hs).
Qed.

Lemma py_sort_total (l : list SkipNodeReference) :
  Forall has_rs l -> exists r, py_sort l = Ok r.
Proof.
  induction l as [|x l IH]; intros Hl; simpl; [eauto |].
  apply Forall_cons in Hl as [Hx Hl]. destruct (IH Hl) as [s Hs].
  rewrite Hs. simpl. apply sort_insert_total; [done |].
  apply py_sort_Permutation in Hs. by rewrite Hs.
Qed.

Lemma py_sort_reverse_Permutation (l r : list SkipNodeReference) :
  py_sort_reverse l = Ok r -> r ≡ₚ l.
Proof.
  unfold py_sort_reverse. intros H. apply bind_Ok in H as (s & Hs & H).
  injection H as <-. apply py_sort_Permutation in Hs.
  by rewrite <- (Permutation_rev s), Hs, <- (Permutation_rev l).
Qed.

Lemma py_sort_reverse_total (l : list SkipNodeReference) :
  Forall has_rs l -> exists r, py_sort_reverse l = Ok r.
Proof.
  intros Hl. unfold py_sort_reverse.
  destruct (py_sort_total (rev l)) as [s ->]; [| simpl; eauto].
  by rewrite <- (Permutation_rev l).
Qed.

Lemma split_range_spec (self_ref : SkipNodeReference)
    (xs L R L' R' : list SkipNodeReference) :
  split_range self_ref xs L R = Ok (L', R') ->
  (forall x, x ∈ L' <->
     x ∈ L \/ (x ∈ xs /\ ref_lt (real x) (real self_ref) = Ok true)) /\
  (forall x, x ∈ R' <->
     x ∈ R \/ (x ∈ xs /\ ref_lt (real self_ref) (real x) = Ok true)).
Proof.
  revert L R. induction xs as [|y xs IH]; intros L R H; cbn [split_range] in H.
  - injection H as <- <-. split; intros x; split; auto.
    + intros [? | [Hx _]]; [done | inversion Hx].
    + intros [? | [Hx _]]; [done | inversion Hx].
  - apply bind_Ok in H as (lt & Hlt & H). apply bind_Ok in H as (gt & Hgt & H).
    unfold ref_gt in Hgt. apply IH in H as [HL HR]. split; intros x.
    + rewrite HL, elem_of_cons. destruct lt.
      * rewrite elem_of_app, list_elem_of_singleton. split.
        -- intros [[? | ->] | [? ?]]; auto.
        -- intros [? | [[-> | ?] ?]]; auto.
      * split.
        -- intros [? | [? ?]]; auto.
        -- intros [? | [[-> | ?] ?]]; auto. congruence.
    + rewrite HR, elem_of_cons. destruct gt.
      * rewrite elem_of_app, list_elem_of_singleton. split.
        -- intros [[? | ->] | [? ?]]; auto.
        -- intros [? | [[-> | ?] ?]]; auto.
      * split.
        -- intros [? | [? ?]]; auto.
        -- intros [? | [[-> | ?] ?]]; auto. congruence.
Qed.

Lemma split_range_total (self_ref : SkipNodeReference)
    (xs L R : list SkipNodeReference) :
  has_rs self_ref -> Forall has_rs xs ->
  exists L' R', split_range self_ref xs L R = Ok (L', R').
Proof.
  intros Hv. revert L R.
  induction xs as [|y xs IH]; intros L R Hxs; cbn [split_range].
  - eauto.
  - apply Forall_cons in Hxs as [Hy Hxs].
    destruct (ref_lt_total (real y) (real self_ref) Hy Hv) as [lt ->]. cbn [bind].
    unfold ref_gt.
    destruct (ref_lt_total (real self_ref) (real y) Hv Hy) as [gt ->]. cbn [bind].
    by apply IH.
Qed.

(** ** The calls of timeout *)

Lemma bind_out_Ok {A B : Type} (m : Out A) (k : A -> Out B)
    (a : A) (c1 : list Call) (b : B) (c2 : list Call) :
  m = (Ok a, c1) -> k a = (Ok b, c2) -> bind_out m k = (Ok b, c1 ++ c2).
Proof. intros -> H. unfold bind_out. by rewrite H. Qed.

Lemma bind_out_calls_l {A B : Type} (m : Out A) (k : A -> Out B) (c : Call) :
  c ∈ m.2 -> c ∈ (bind_out m k).2.
Proof.
  destruct m as [[a|e] calls]; simpl; [| done].
  destruct (k a) as [r calls']. simpl. intros H. apply elem_of_app. by left.
Qed.

Lemma linearising_pairs_calls (r : list SkipNodeReference) (ks : list nat)
    (i : nat) :
  Forall (fun c => method c = "linearise" /\ target c ∈ r /\ argument c ∈ r)
    (linearising_pairs r ks i).1.
Proof.
  revert i. induction ks as [|k ks IH]; intros i; cbn [linearising_pairs].
  - constructor.
  - specialize (IH k). destruct (linearising_pairs r ks k) as [calls j].
    cbn [fst] in *. apply Forall_app. split; [| done].
    destruct (r !! k) as [a|] eqn:Ha; [| constructor].
    destruct (r !! (k + 1)) as [b|] eqn:Hb; constructor; [| constructor].
    repeat split; simpl; by eapply list_elem_of_lookup_2.
Qed.

Lemma linearising_calls (self_ref : SkipNodeReference)
    (r : list SkipNodeReference) (i : nat) :
  Forall (fun c => method c = "linearise" /\ target c ∈ r /\
                   (argument c ∈ r \/ argument c = self_ref))
    (linearising self_ref r i).1.
Proof.
  unfold linearising.
  pose proof (linearising_pairs_calls r (range (length r - 1)) i) as Hp.
  destruct (linearising_pairs r (range (length r - 1)) i) as [calls j].
  cbn [fst] in *. apply Forall_app. split.
  - eapply Forall_impl; [exact Hp |]. intros c (? & ? & ?). auto.
  - destruct (last r) as [c|] eqn:Hlast; constructor; [| constructor].
    repeat split; simpl; [| by right].
    apply last_Some in Hlast as [l' ->]. apply elem_of_app. right. left.
Qed.

(** The side's element closest to the node is told about the node. *)
Lemma linearising_closing (self_ref : SkipNodeReference)
    (r : list SkipNodeReference) (i : nat) (c : SkipNodeReference) :
  last r = Some c -> linearise_call c self_ref ∈ (linearising self_ref r i).1.
Proof.
  intros Hlast. unfold linearising.
  destruct (linearising_pairs r (range (length r - 1)) i) as [calls j].
  cbn [fst]. rewrite Hlast. apply elem_of_app. right. left.
Qed.

Lemma bridging_loop_calls (j : nat) (range1 : list SkipNodeReference)
    (c : SkipNodeReference) (N : list SkipNodeReference) :
  Forall has_rs range1 -> Forall has_rs N ->
  exists calls,
    bridging_loop j range1 c N = (Ok tt, calls) /\
    Forall (fun call => method call = "linearise" /\
                        target call ∈ range1 /\ argument call = c) calls.
Proof.
  intros H1 HN. induction range1 as [|v range1 IH]; cbn [bridging_loop].
  - exists []. split; [done | constructor].
  - apply Forall_cons in H1 as [Hv H1]. destruct (IH H1) as (calls & Hcalls & Hall).
    destruct (skipRange_total j v N Hv HN) as (R & HR & _).
    rewrite HR, bind_out_lift_Ok.
    assert (Forall (fun call => method call = "linearise" /\
                      target call ∈ v :: range1 /\ argument call = c) calls)
      as Hall'.
    { eapply Forall_impl; [exact Hall |]. intros call (? & ? & ?).
      split; [done |]. split; [by right | done]. }
    case_bool_decide.
    + exists ([linearise_call v c] ++ calls). split.
      * by apply (bind_out_Ok _ _ tt [linearise_call v c] tt calls).
      * simpl. constructor; [| done]. split; [done |]. split; [left | done].
    + exists ([] ++ calls). split; [| done].
      by apply (bind_out_Ok _ _ tt [] tt calls).
Qed.

Lemma bridging_calls (j : nat) (range1 range2 : list SkipNodeReference)
    (N : list SkipNodeReference) :
  Forall has_rs range1 -> Forall has_rs N ->
  exists calls,
    bridging j range1 range2 N = (Ok tt, calls) /\
    Forall (fun call => method call = "linearise" /\
                        target call ∈ range1 /\ argument call ∈ range2) calls.
Proof.
  intros H1 HN. unfold bridging.
  destruct (last range2) as [c|] eqn:Hlast.
  - destruct (bridging_loop_calls j range1 c N H1 HN) as (calls & -> & Hall).
    exists calls. split; [done |].
    eapply Forall_impl; [exact Hall |]. intros call (? & ? & ->).
    repeat split; try done.
    apply last_Some in Hlast as [l' ->]. apply elem_of_app. right. left.
  - exists []. split; [done | constructor].
Qed.

(** One iteration of the loop of [timeout], on a node that satisfies
    [node_inv]: the two sides [L] and [R], the outcome and the calls. *)
Lemma timeout_level_calls (s : SkipNode) (i : nat) :
  node_inv s -> i < RS_BIT_LENGTH - 1 ->
  exists range_i L R calls,
    _ranges s !! i = Some range_i /\
    skipRange i (reference s) (N s) = Ok range_i /\
    (forall x, x ∈ L <->
       x ∈ range_i /\ ref_lt (real x) (real (reference s)) = Ok true) /\
    (forall x, x ∈ R <->
       x ∈ range_i /\ ref_lt (real (reference s)) (real x) = Ok true) /\
    timeout_level s i = (Ok tt, calls) /\
    (forall c, last L = Some c -> linearise_call c (reference s) ∈ calls) /\
    (forall c, last R = Some c -> linearise_call c (reference s) ∈ calls) /\
    Forall (neighbour_call s) calls.
Proof.
  intros (Hv & HN & _ & Hlev) Hi.
  destruct (Hlev i Hi) as (range_i & Hri & Hskip).
  assert (range_i ⊆ N s) as Hsub by by eapply skipRange_subseteq.
  assert (Forall has_rs range_i) as Hrs.
  { apply Forall_forall. intros x Hx. rewrite Forall_forall in HN. auto. }
  destruct (split_range_total (reference s) range_i [] [] Hv Hrs)
    as (L0 & R0 & Hsplit).
  destruct (split_range_spec _ _ _ _ _ _ Hsplit) as [HL0 HR0].
  assert (Forall has_rs L0) as HL0rs.
  { apply Forall_forall. intros x [Hx | [Hx _]]%HL0; [inversion Hx |].
    rewrite Forall_forall in Hrs. auto. }
  assert (Forall has_rs R0) as HR0rs.
  { apply Forall_forall. intros x [Hx | [Hx _]]%HR0; [inversion Hx |].
    rewrite Forall_forall in Hrs. auto. }
  destruct (py_sort_total L0 HL0rs) as [L HL].
  destruct (py_sort_reverse_total R0 HR0rs) as [R HR].
  pose proof (py_sort_Permutation _ _ HL) as HLp.
  pose proof (py_sort_reverse_Permutation _ _ HR) as HRp.
  assert (forall x, x ∈ L <->
            x ∈ range_i /\ ref_lt (real x) (real (reference s)) = Ok true) as HLm.
  { intros x. rewrite HLp, HL0. split; [| auto].
    intros [Hx | ?]; [inversion Hx | done]. }
  assert (forall x, x ∈ R <->
            x ∈ range_i /\ ref_lt (real (reference s)) (real x) = Ok true) as HRm.
  { intros x. rewrite HRp, HR0. split; [| auto].
    intros [Hx | ?]; [inversion Hx | done]. }
  assert (Forall has_rs L) as HLrs by by rewrite HLp.
  assert (Forall has_rs R) as HRrs by by rewrite HRp.
  set (j := bridging_level i L R).
  destruct (bridging_calls j L R (N s) HLrs HN) as (c1 & Hc1 & Hall1).
  destruct (bridging_calls j R L (N s) HRrs HN) as (c2 & Hc2 & Hall2).
  set (cL := (linearising (reference s) L i).1).
  set (cR := (linearising (reference s) R (linearising (reference s) L i).2).1).
  exists range_i, L, R, ((cL ++ cR) ++ c1 ++ c2).
  split; [done |]. split; [done |]. split; [done |]. split; [done |].
  split.
  { rewrite (timeout_level_bridging s i range_i L0 R0 L R Hri Hsplit HL HR).
    eapply (bind_out_Ok _ _ tt); [done |]. cbn beta.
    eapply (bind_out_Ok _ _ tt); [exact Hc1 | exact Hc2]. }
  split.
  { intros c Hc. apply elem_of_app. left. apply elem_of_app. left.
    by apply linearising_closing. }
  split.
  { intros c Hc. apply elem_of_app. left. apply elem_of_app. right.
    by apply linearising_closing. }
  assert (forall x, x ∈ L \/ x ∈ R -> x ∈ N s /\ x <> reference s) as Hside.
  { intros x [[Hx Hlt]%HLm | [Hx Hgt]%HRm]; (split; [by apply Hsub |]);
      intros ->; by apply ref_lt_irrefl in Hlt || by apply ref_lt_irrefl in Hgt. }
  assert (forall x, x ∈ L \/ x ∈ R -> x ∈ N s) as HsideN
    by (intros x Hx; by apply Hside).
  apply Forall_app. split; [apply Forall_app; split |apply Forall_app; split].
  - eapply Forall_impl; [apply linearising_calls |].
    intros c (Hm & Ht & Ha). split; [done |].
    destruct (Hside (target c)) as [? ?]; [by left |].
    split; [done |]. split; [done |].
    destruct Ha as [Ha | Ha]; [left; apply HsideN; by left | by right].
  - eapply Forall_impl; [apply linearising_calls |].
    intros c (Hm & Ht & Ha). split; [done |].
    destruct (Hside (target c)) as [? ?]; [by right |].
    split; [done |]. split; [done |].
    destruct Ha as [Ha | Ha]; [left; apply HsideN; by right | by right].
  - eapply Forall_impl; [exact Hall1 |].
    intros c (Hm & Ht & Ha). split; [done |].
    destruct (Hside (target c)) as [? ?]; [by left |].
    split; [done |]. split; [done |]. left. apply HsideN. by right.
  - eapply Forall_impl; [exact Hall2 |].
    intros c (Hm & Ht & Ha). split; [done |].
    destruct (Hside (target c)) as [? ?]; [by right |].
    split; [done |]. split; [done |]. left. apply HsideN. by left.
Qed.

Lemma timeout_loop_calls (s : SkipNode) (levels : list nat) :
  node_inv s -> (forall i, i ∈ levels -> i < RS_BIT_LENGTH - 1) ->
  exists calls,
    timeout_loop s levels = (Ok tt, calls) /\
    Forall (neighbour_call s) calls /\
    forall i c, i ∈ levels -> c ∈ (timeout_level s i).2 -> c ∈ calls.
Proof.
  intros Hinv. induction levels as [|i levels IH]; intros Hlev;
    cbn [timeout_loop].
  - exists []. split; [done |]. split; [constructor |].
    intros i c Hi. inversion Hi.
  - destruct IH as (calls & Hcalls & Hall & Hincl).
    { intros j Hj. apply Hlev. by right. }
    destruct (timeout_level_calls s i Hinv) as
      (ri & L & R & ci & _ & _ & _ & _ & Hci & _ & _ & Halli).
    { apply Hlev. left. }
    exists (ci ++ calls). split; [by eapply bind_out_Ok |].
    split; [by apply Forall_app |].
    intros j c [-> | Hj]%elem_of_cons Hc; apply elem_of_app.
    + left. by rewrite Hci in Hc.
    + right. by eapply Hincl.
Qed.

(** X15. On a node that has only been given references with a bit
    string, [timeout()] returns without raising, and every call it
    issues is [linearise], on a neighbour that is not the node itself,
    with a neighbour or the node's own reference as argument. *)
Theorem timeout_calls_neighbours (h : string) (p : Z) (b : BitString)
    (ops : list Op) :
  Forall op_has_rs ops ->
  let s := run ops (SkipNode_init h p b) in
  exists calls, timeout s = (Ok tt, calls) /\ Forall (neighbour_call s) calls.
Proof.
  intros Hops s.
  pose proof (node_inv_run ops _ Hops (node_inv_init h p b)) as Hinv.
  destruct (timeout_loop_calls s (range (RS_BIT_LENGTH - 1)) Hinv)
    as (calls & Hcalls & Hall & _).
  { intros i. apply elem_of_levels. }
  exists calls. by split.
Qed.

Lemma timeout_calls_neighbours_witness :
  exists calls,
    timeout example_node = (Ok tt, calls) /\
    Forall (neighbour_call example_node) calls.
Proof.
  apply (timeout_calls_neighbours "localhost" 33000 (bits "1000000000000000")
           example_ops example_ops_has_rs).
Defined.

(** ** A node introduces itself to its closest neighbours *)

Lemma prefix_0 (v : SkipNodeReference) : has_rs v -> prefix 0 v = Ok [].
Proof.
  intros [b Hb]%has_rs_rs. unfold prefix. rewrite Hb. simpl. by rewrite take_0.
Qed.

Lemma levelPred_inv (i : nat) (v : SkipNodeReference) (x : bool)
    (N : list SkipNodeReference) (p : Ref) :
  levelPred i v x N = Ok p ->
  p = lowest \/ exists w, p = real w /\ ref_lt (real w) (real v) = Ok true.
Proof.
  unfold levelPred. intros H. apply bind_Ok in H as (W & _ & H).
  apply pred_inv in H as [-> | (w & -> & _ & Hw)]; [by left | right; eauto].
Qed.

Lemma levelSucc_inv (i : nat) (v : SkipNodeReference) (x : bool)
    (N : list SkipNodeReference) (p : Ref) :
  levelSucc i v x N = Ok p ->
  p = highest \/ exists w, p = real w /\ ref_lt (real v) (real w) = Ok true.
Proof.
  unfold levelSucc. intros H. apply bind_Ok in H as (W & _ & H).
  apply succ_inv in H as [-> | (w & -> & _ & Hw)]; [by left | right; eauto].
Qed.

(** If anything in [N] is below [v], the range of level 0 has an element
    below [v]. *)
Lemma range_0_below (v : SkipNodeReference) (N R : list SkipNodeReference)
    (u : SkipNodeReference) :
  has_rs v -> Forall has_rs N -> skipRange 0 v N = Ok R ->
  u ∈ N -> ref_lt (real u) (real v) = Ok true ->
  exists y, y ∈ R /\ ref_lt (real y) (real v) = Ok true.
Proof.
  intros Hv HN HR Hu Hlt.
  destruct (proj1 (has_rs_rs v) Hv) as [b Hb]. apply rs_Ok in Hb.
  destruct (levelPred_total 0 v false N Hv HN) as (p0 & Hp0 & _).
  destruct (levelPred_total 0 v true N Hv HN) as (p1 & Hp1 & _).
  destruct (levelPred_inv _ _ _ _ _ Hp0) as [-> | (w & -> & Hw)].
  2: { exists w. split; [| done].
       eapply (levelPred_in_range 0 v false); eauto. lia. }
  destruct (levelPred_inv _ _ _ _ _ Hp1) as [-> | (w & -> & Hw)].
  2: { exists w. split; [| done].
       eapply (levelPred_in_range 0 v true); eauto. lia. }
  exists u. split; [| done]. apply (skipRange_elem_of _ _ _ _ HR).
  split; [done |].
  destruct (high_total 0 v N Hv HN) as (h & Hh & _).
  assert (has_rs u) as Hurs by (rewrite Forall_forall in HN; auto).
  exists [], lowest, h. split; [by apply prefix_0 |]. split; [by apply prefix_0 |].
  split; [unfold low; by rewrite Hp0, Hp1 |]. split; [done |].
  split; [done |]. by eapply below_le_high.
Qed.

Lemma range_0_above (v : SkipNodeReference) (N R : list SkipNodeReference)
    (u : SkipNodeReference) :
  has_rs v -> Forall has_rs N -> skipRange 0 v N = Ok R ->
  u ∈ N -> ref_lt (real v) (real u) = Ok true ->
  exists y, y ∈ R /\ ref_lt (real v) (real y) = Ok true.
Proof.
  intros Hv HN HR Hu Hgt.
  destruct (proj1 (has_rs_rs v) Hv) as [b Hb]. apply rs_Ok in Hb.
  destruct (levelSucc_total 0 v false N Hv HN) as (s0 & Hs0 & _).
  destruct (levelSucc_total 0 v true N Hv HN) as (s1 & Hs1 & _).
  destruct (levelSucc_inv _ _ _ _ _ Hs0) as [-> | (w & -> & Hw)].
  2: { exists w. split; [| done].
       eapply (levelSucc_in_range 0 v false); eauto. lia. }
  destruct (levelSucc_inv _ _ _ _ _ Hs1) as [-> | (w & -> & Hw)].
  2: { exists w. split; [| done].
       eapply (levelSucc_in_range 0 v true); eauto. lia. }
  exists u. split; [| done]. apply (skipRange_elem_of _ _ _ _ HR).
  split; [done |].
  destruct (low_total 0 v N Hv HN) as (l & Hl & _).
  assert (has_rs u) as Hurs by (rewrite Forall_forall in HN; auto).
  exists [], l, highest. split; [by apply prefix_0 |]. split; [by apply prefix_0 |].
  split; [done |]. split; [unfold high; by rewrite Hs0, Hs1 |].
  split; [by eapply low_le_above | done].
Qed.

Lemma last_of_nonempty {A : Type} (l : list A) (x : A) :
  x ∈ l -> exists c, last l = Some c /\ c ∈ l.
Proof.
  intros Hx. destruct (last l) as [c|] eqn:Hlast.
  - exists c. split; [done |]. apply last_Some in Hlast as [l' ->].
    apply elem_of_app. right. left.
  - apply last_None in Hlast. subst l. inversion Hx.
Qed.

(** X16. A node introduces itself at every [timeout()]: on a node that
    has only been given references with a bit string, if some neighbour
    is below the node, [timeout] calls [c.linearise(self.reference)] on
    a neighbour [c] below it, and likewise above. *)
Theorem timeout_introduces_self (h : string) (p : Z) (b : BitString)
    (ops : list Op) (u : SkipNodeReference) :
  Forall op_has_rs ops ->
  let s := run ops (SkipNode_init h p b) in
  u ∈ N s ->
  (ref_lt (real u) (real (reference s)) = Ok true ->
   exists c, c ∈ N s /\ ref_lt (real c) (real (reference s)) = Ok true /\
             linearise_call c (reference s) ∈ (timeout s).2) /\
  (ref_lt (real (reference s)) (real u) = Ok true ->
   exists c, c ∈ N s /\ ref_lt (real (reference s)) (real c) = Ok true /\
             linearise_call c (reference s) ∈ (timeout s).2).
Proof.
  intros Hops s Hu.
  pose proof (node_inv_run ops _ Hops (node_inv_init h p b)) as Hinv.
  fold s in Hinv.
  assert (0 < RS_BIT_LENGTH - 1) as H0
    by (unfold RS_BIT_LENGTH, RS_BYTE_LENGTH; simpl; lia).
  destruct (timeout_level_calls s 0 Hinv H0)
    as (R0 & L & R & calls0 & _ & Hskip & HL & HR & Hlevel & HcL & HcR & _).
  destruct (timeout_loop_calls s (range (RS_BIT_LENGTH - 1)) Hinv)
    as (calls & Hcalls & _ & Hincl).
  { intros i. apply elem_of_levels. }
  assert (forall c, c ∈ calls0 -> c ∈ (timeout s).2) as Hin.
  { intros c Hc. unfold timeout. rewrite Hcalls. simpl.
    apply (Hincl 0); [by apply elem_of_levels | by rewrite Hlevel]. }
  destruct Hinv as (Hv & HN & _ & _).
  pose proof (skipRange_subseteq _ _ _ _ Hskip) as Hsub.
  split; intros Hcmp.
  - destruct (range_0_below _ _ _ u Hv HN Hskip Hu Hcmp) as (y & Hy & Hylt).
    destruct (last_of_nonempty L y) as (c & Hlast & Hc); [by apply HL |].
    apply HL in Hc as [HcR0 Hclt].
    exists c. split; [by apply Hsub |]. split; [done |]. apply Hin. by apply HcL.
  - destruct (range_0_above _ _ _ u Hv HN Hskip Hu Hcmp) as (y & Hy & Hygt).
    destruct (last_of_nonempty R y) as (c & Hlast & Hc); [by apply HR |].
    apply HR in Hc as [HcR0 Hcgt].
    exists c. split; [by apply Hsub |]. split; [done |]. apply Hin. by apply HcR.
Qed.

Lemma timeout_introduces_self_witness :
  (exists c, c ∈ N example_node /\
     ref_lt (real c) (real (reference example_node)) = Ok true /\
     linearise_call c (reference example_node) ∈ (timeout example_node).2) /\
  (exists c, c ∈ N example_node /\
     ref_lt (real (reference example_node)) (real c) = Ok true /\
     linearise_call c (reference example_node) ∈ (timeout example_node).2).
Proof.
  split.
  - destruct (timeout_introduces_self "localhost" 33000 (bits "1000000000000000")
                example_ops x1 example_ops_has_rs) as [Hbelow _].
    + apply (bool_decide_unpack _). by vm_compute.
    + apply Hbelow. by vm_compute.
  - destruct (timeout_introduces_self "localhost" 33000 (bits "1000000000000000")
                example_ops x4 example_ops_has_rs) as [_ Habove].
    + apply (bool_decide_unpack _). by vm_compute.
    + apply Habove. by vm_compute.
Defined.

(** ** The level used by part b of timeout *)



(** ** The first neighbour of a node *)

Lemma levelPred_inv_N (i : nat) (v : SkipNodeReference) (x : bool)
    (N : list SkipNodeReference) (p : Ref) :
  levelPred i v x N = Ok p ->
  p = lowest \/
  exists w, p = real w /\ w ∈ N /\ ref_lt (real w) (real v) = Ok true.
Proof.
  unfold levelPred. intros H. apply bind_Ok in H as (W & HW & H).
  apply pred_inv in H as [-> | (w & -> & HwW & Hw)]; [by left | right].
  exists w. split; [done |]. split; [| done].
  unfold _levelNodes in HW. apply bind_Ok in HW as (pref & _ & HW).
  by apply (filterM_subseteq _ _ _ HW).
Qed.

Lemma levelSucc_inv_N (i : nat) (v : SkipNodeReference) (x : bool)
    (N : list SkipNodeReference) (p : Ref) :
  levelSucc i v x N = Ok p ->
  p = highest \/
  exists w, p = real w /\ w ∈ N /\ ref_lt (real v) (real w) = Ok true.
Proof.
  unfold levelSucc. intros H. apply bind_Ok in H as (W & HW & H).
  apply succ_inv in H as [-> | (w & -> & HwW & Hw)]; [by left | right].
  exists w. split; [done |]. split; [| done].
  unfold _levelNodes in HW. apply bind_Ok in HW as (pref & _ & HW).
  by apply (filterM_subseteq _ _ _ HW).
Qed.

Lemma skipRange_sublist (i : nat) (v : SkipNodeReference)
    (N R : list SkipNodeReference) :
  skipRange i v N = Ok R -> sublist R N.
Proof. unfold skipRange. intros H. inv_bind. by eapply filterM_sublist. Qed.

(** With a single neighbour, the range of level 0 is that neighbour. *)
Lemma skipRange_0_singleton (v w : SkipNodeReference) :
  has_rs v -> has_rs w -> skipRange 0 v [w] = Ok [w].
Proof.
  intros Hv Hw.
  assert (Forall has_rs [w]) as HN by by apply Forall_singleton.
  destruct (skipRange_total 0 v [w] Hv HN) as (R & HR & _).
  rewrite HR. f_equal.
  assert (w ∈ R) as Hin.
  { destruct (ref_lt_total (real w) (real v) Hw Hv) as [[|] Hlt].
    { destruct (range_0_below v [w] R w Hv HN HR) as (y & Hy & _);
        [left | done |].
      pose proof (skipRange_subseteq _ _ _ _ HR y Hy) as Hyw.
      by apply list_elem_of_singleton in Hyw as ->. }
    destruct (ref_lt_total (real v) (real w) Hv Hw) as [[|] Hgt].
    { destruct (range_0_above v [w] R w Hv HN HR) as (y & Hy & _);
        [left | done |].
      pose proof (skipRange_subseteq _ _ _ _ HR y Hy) as Hyw.
      by apply list_elem_of_singleton in Hyw as ->. }
    apply (skipRange_elem_of _ _ _ _ HR). split; [left |].
    destruct (levelPred_total 0 v false [w] Hv HN) as (p0 & Hp0 & _).
    destruct (levelPred_total 0 v true [w] Hv HN) as (p1 & Hp1 & _).
    destruct (levelSucc_total 0 v false [w] Hv HN) as (s0 & Hs0 & _).
    destruct (levelSucc_total 0 v true [w] Hv HN) as (s1 & Hs1 & _).
    assert (p0 = lowest) as ->.
    { destruct (levelPred_inv_N _ _ _ _ _ Hp0) as [? | (u & _ & Hu & Hult)];
        [done |]. apply list_elem_of_singleton in Hu as ->. congruence. }
    assert (p1 = lowest) as ->.
    { destruct (levelPred_inv_N _ _ _ _ _ Hp1) as [? | (u & _ & Hu & Hult)];
        [done |]. apply list_elem_of_singleton in Hu as ->. congruence. }
    assert (s0 = highest) as ->.
    { destruct (levelSucc_inv_N _ _ _ _ _ Hs0) as [? | (u & _ & Hu & Hugt)];
        [done |]. apply list_elem_of_singleton in Hu as ->. congruence. }
    assert (s1 = highest) as ->.
    { destruct (levelSucc_inv_N _ _ _ _ _ Hs1) as [? | (u & _ & Hu & Hugt)];
        [done |]. apply list_elem_of_singleton in Hu as ->. congruence. }
    exists [], lowest, highest.
    split; [by apply prefix_0 |]. split; [by apply prefix_0 |].
    split; [unfold low; by rewrite Hp0, Hp1 |].
    split; [unfold high; by rewrite Hs0, Hs1 |]. done. }
  pose proof (skipRange_sublist _ _ _ _ HR) as Hsub.
  destruct R as [|y R]; [inversion Hin |].
  pose proof (sublist_length _ _ Hsub) as Hlen. simpl in Hlen.
  destruct R; [| simpl in Hlen; lia].
  by apply list_elem_of_singleton in Hin as ->.
Qed.

(** The first [linearise] on a new node. *)
Lemma linearise_first_neighbour (h : string) (p : Z) (b : BitString)
    (u : SkipNodeReference) :
  has_rs u -> u <> SkipNodeReference_init (Some h) (Some p) (Some b) ->
  exists node,
    linearise u (SkipNode_init h p b) = (Ok tt, node, []) /\
    reference node = SkipNodeReference_init (Some h) (Some p) (Some b) /\
    N node = [u] /\ _ranges node !! 0 = Some [u].
Proof.
  intros Hu Hne.
  destruct (linearise_fresh u (SkipNode_init h p b)) as
    (r & node & Hlin & Hup & Href & _ & HN); [done | by intros H; inversion H |].
  simpl in Hup, Href, HN.
  destruct (updateRanges_total (set_N [u] (SkipNode_init h p b))) as [s' Hs'].
  { done. }
  { by apply Forall_singleton. }
  rewrite Hup in Hs'. injection Hs' as -> ->.
  exists s'. split; [done |]. split; [done |]. split; [done |].
  apply updateRanges_spec in Hup as (_ & _ & _ & _ & _ & Hlev).
  destruct (Hlev 0) as (R & HR & Hskip).
  { unfold RS_BIT_LENGTH, RS_BYTE_LENGTH. simpl. lia. }
  simpl in Hskip. rewrite skipRange_0_singleton in Hskip by done.
  congruence.
Qed.

(** ** The nodes the factory returns *)

(** X18. [_initNode(port, False)] introduces the new node to the node
    created last: when that node's reference differs from the new one,
    the node returned has exactly that reference as neighbour, in [N]
    and in the range of level 0, and the one call made is [linearise] on
    the new node.  With no node created yet, [self.nodes[-1]] raises
    [IndexError] and nothing is called. *)
Theorem _initNode_later_node (thisHost : string) (f : SkipNodeFactory)
    (p : Z) (b : BitString) :
  (forall prev,
     last (nodes f) = Some prev -> has_rs (reference prev) ->
     reference prev <> SkipNodeReference_init (Some thisHost) (Some p) (Some b) ->
     exists node,
       _initNode thisHost f p b false
         = (Ok node,
            [local_call (SkipNode_init thisHost p b) "linearise" (reference prev)]) /\
       reference node = SkipNodeReference_init (Some thisHost) (Some p) (Some b) /\
       N node = [reference prev] /\
       _ranges node !! 0 = Some [reference prev]) /\
  (nodes f = [] -> _initNode thisHost f p b false = (Raise IndexError, [])).
Proof.
  split.
  - intros prev Hprev Hrs Hne.
    destruct (linearise_first_neighbour thisHost p b (reference prev) Hrs Hne)
      as (node & Hlin & Href & HN & Hr).
    exists node. unfold _initNode. rewrite Hprev, Hlin. by simpl.
  - intros Hnil. unfold _initNode. by rewrite Hnil.
Qed.

Lemma _initNode_later_node_witness :
  (exists node,
     _initNode "localhost" factory_first_node 33001 (bits "0001000000000000") false
       = (Ok node,
          [local_call (SkipNode_init "localhost" 33001 (bits "0001000000000000"))
             "linearise"
             (reference (SkipNode_init "localhost" 33000 (bits "1000000000000000")))]) /\
     reference node = x1 /\
     N node = [reference (SkipNode_init "localhost" 33000 (bits "1000000000000000"))] /\
     _ranges node !! 0
       = Some [reference (SkipNode_init "localhost" 33000 (bits "1000000000000000"))]) /\
  _initNode "localhost" factory_with_entry 33001 (bits "0001000000000000") false
    = (Raise IndexError, []).
Proof.
  destruct (_initNode_later_node "localhost" factory_first_node 33001
              (bits "0001000000000000")) as [Hlater _].
  destruct (_initNode_later_node "localhost" factory_with_entry 33001
              (bits "0001000000000000")) as [_ Hnone].
  split.
  - apply (Hlater (SkipNode_init "localhost" 33000 (bits "1000000000000000")));
      by vm_compute.
  - apply Hnone. by vm_compute.
Defined.

(** X19. When the entry node's bit string arrives before any node
    exists, [_gotEntryNodeRs] stores the entry reference and calls
    nothing; [_initNode(port, True)] then introduces the first node to
    it: the node returned has the entry reference as its one neighbour,
    in [N] and in the range of level 0. *)
Theorem entry_known_before_first_node
    (introduce : SkipNodeReference -> SkipNode ->
                 result unit * SkipNode * list Call)
    (thisHost : string) (f : SkipNodeFactory) (bits_entry : BitString)
    (p : Z) (b : BitString) :
  nodes f = [] ->
  let entry :=
    SkipNodeReference_init (_entryNodeHost f) (_entryNodePort f)
      (Some bits_entry) in
  let f' := (_gotEntryNodeRs introduce bits_entry f).1.2 in
  _gotEntryNodeRs introduce bits_entry f = (Ok tt, f', []) /\
  entryNodeReference f' = Some entry /\ nodes f' = [] /\
  (entry <> SkipNodeReference_init (Some thisHost) (Some p) (Some b) ->
   exists node,
     _initNode thisHost f' p b true
       = (Ok node, [local_call (SkipNode_init thisHost p b) "linearise" entry]) /\
     N node = [entry] /\ _ranges node !! 0 = Some [entry]).
Proof.
  intros Hnil entry f'. subst f'. unfold _gotEntryNodeRs.
  rewrite Hnil. simpl. fold entry.
  split; [done |]. split; [done |]. split; [done |].
  intros Hne.
  destruct (linearise_first_neighbour thisHost p b entry) as
    (node & Hlin & Href & HN & Hr); [done | done |].
  exists node. unfold _initNode. simpl. rewrite Hlin. by simpl.
Qed.

Lemma entry_known_before_first_node_witness :
  let f' := (_gotEntryNodeRs linearise (bits "1100000000000000")
               factory_with_entry).1.2 in
  _gotEntryNodeRs linearise (bits "1100000000000000") factory_with_entry
    = (Ok tt, f', []) /\
  entryNodeReference f' = Some entry_ref /\ nodes f' = [] /\
  (entry_ref <> SkipNodeReference_init (Some "localhost") (Some 33000%Z)
                  (Some (bits "1000000000000000")) ->
   exists node,
     _initNode "localhost" f' 33000 (bits "1000000000000000") true
       = (Ok node,
          [local_call (SkipNode_init "localhost" 33000 (bits "1000000000000000"))
             "linearise" entry_ref]) /\
     N node = [entry_ref] /\ _ranges node !! 0 = Some [entry_ref]).
Proof.
  apply (entry_known_before_first_node linearise "localhost" factory_with_entry
           (bits "1100000000000000") 33000 (bits "1000000000000000")).
  reflexivity.
Defined.
